(** * Decrypto guesser: the log-domain decision core

    A shallow embedding of the notebook that models each keyword slot as a
    random variable (a belief), scores every candidate code through a
    log-sum-exp expectation and picks the best one, together with the
    support-reduction ("compression") helpers.

    Numbers.  The notebook computes with IEEE double precision through
    NumPy.  Here a NumPy float is an exact real number or one of the three
    special values the notebook really produces and consumes (the beliefs of
    [guesser_random_variable] are built from [np.log(0) = -inf]).  Rounding,
    overflow and underflow are not represented: arithmetic on finite values
    is exact real arithmetic.

    Arrays.  A one-dimensional array is a list, a two-dimensional one a list
    of rows.  Operations NumPy rejects (ragged rows, an index past the end,
    a reduction over an empty axis) return the exception it raises.  For a
    batch with no random variable or no clue at all NumPy's broadcasting of
    zero-length axes is not reproduced; no statement below relies on it. *)

From Stdlib Require Import Reals Lra Lia.
From stdpp Require Import base decidable option list strings gmap sorting.

(** ** Exceptions *)

Inductive exn : Type := IndexError | ValueError | KeyError.

Inductive res (A : Type) : Type :=
| OK (a : A)
| Raise (e : exn).
Arguments OK {A} a.
Arguments Raise {A} e.

#[global] Instance res_ret : MRet res := λ A a, OK a.
#[global] Instance res_bind : MBind res := λ A B f m,
  match m with OK a => f a | Raise e => Raise e end.
#[global] Instance res_fmap : FMap res := λ A B f m,
  match m with OK a => OK (f a) | Raise e => Raise e end.

(** [l[i]] for a non-negative index: [IndexError] past the end. *)
Definition getitem {A} (l : list A) (i : nat) : res A :=
  match l !! i with Some a => OK a | None => Raise IndexError end.

(** ** NumPy floats *)

Inductive float64 : Type :=
| Fin (x : R)
| PInf
| NInf
| NaN.

#[global] Instance Rlt_decision (x y : R) : Decision (x < y)%R := Rlt_dec x y.
#[global] Instance Rle_decision (x y : R) : Decision (x <= y)%R := Rle_dec x y.
#[global] Instance Req_decision : EqDecision R := Req_dec_T.

Definition fneg (a : float64) : float64 :=
  match a with
  | Fin x => Fin (- x)
  | PInf => NInf
  | NInf => PInf
  | NaN => NaN
  end.

Definition fadd (a b : float64) : float64 :=
  match a, b with
  | NaN, _ | _, NaN => NaN
  | PInf, NInf | NInf, PInf => NaN
  | PInf, _ | _, PInf => PInf
  | NInf, _ | _, NInf => NInf
  | Fin x, Fin y => Fin (x + y)
  end.

Definition fsub (a b : float64) : float64 := fadd a (fneg b).

(** [np.exp]: [exp(-inf) = 0]. *)
Definition fexp (a : float64) : float64 :=
  match a with
  | Fin x => Fin (exp x)
  | PInf => PInf
  | NInf => Fin 0
  | NaN => NaN
  end.

(** [np.log]: [log(0) = -inf] and the logarithm of a negative number is
    [nan] (NumPy warns, it does not raise). *)
Definition flog (a : float64) : float64 :=
  match a with
  | Fin x => if decide (0 < x)%R then Fin (ln x)
             else if decide (x = 0%R) then NInf else NaN
  | PInf => PInf
  | NInf => NaN
  | NaN => NaN
  end.

(** The order NumPy sorts and maximises by: the usual order of the extended
    reals, with [nan] above everything. *)
Definition np_lt (a b : float64) : Prop :=
  match a, b with
  | NaN, _ => False
  | _, NaN => True
  | _, NInf => False
  | NInf, _ => True
  | PInf, _ => False
  | Fin _, PInf => True
  | Fin x, Fin y => (x < y)%R
  end.

#[global] Instance np_lt_dec (a b : float64) : Decision (np_lt a b).
Proof. destruct a, b; simpl; apply _. Defined.

Definition is_nan (a : float64) : bool :=
  match a with NaN => true | _ => false end.

(** The comparison operator [a >= b]: false as soon as a [nan] is involved. *)
Definition fge (a b : float64) : bool :=
  negb (is_nan a) && negb (is_nan b) && negb (bool_decide (np_lt a b)).

(** [np.sum] over one axis. *)
Definition np_sum (xs : list float64) : float64 := foldr fadd (Fin 0) xs.

(** [cumsum]: the running sums. *)
Fixpoint cumsum_from (acc : float64) (xs : list float64) : list float64 :=
  match xs with
  | [] => []
  | x :: xs' => let acc' := fadd acc x in acc' :: cumsum_from acc' xs'
  end.

Definition np_cumsum (xs : list float64) : list float64 :=
  match xs with
  | [] => []
  | x :: xs' => x :: cumsum_from x xs'
  end.

(** [np.max] over one axis: a [nan] propagates, an empty axis is a
    [ValueError]. *)
Definition fmax (a b : float64) : float64 :=
  if bool_decide (np_lt a b) then b else a.

Definition np_max (xs : list float64) : res float64 :=
  match xs with
  | [] => Raise ValueError
  | x :: xs' => OK (foldl fmax x xs')
  end.

(** [np.argmax] of a float array: the first index holding the maximum (the
    first [nan], if any). *)
Fixpoint argmax_from (best : float64) (besti i : nat) (xs : list float64) : nat :=
  match xs with
  | [] => besti
  | x :: xs' =>
      if bool_decide (np_lt best x) then argmax_from x i (S i) xs'
      else argmax_from best besti (S i) xs'
  end.

Definition np_argmax (xs : list float64) : res nat :=
  match xs with
  | [] => Raise ValueError
  | x :: xs' => OK (argmax_from x 0 1 xs')
  end.

(** [np.argmax] of a boolean array: the first [True], or 0 when there is
    none. *)
Fixpoint first_true (bs : list bool) : option nat :=
  match bs with
  | [] => None
  | b :: bs' => if b then Some 0 else S <$> first_true bs'
  end.

Definition np_argmax_bool (bs : list bool) : res nat :=
  match bs with
  | [] => Raise ValueError
  | _ => OK (default 0 (first_true bs))
  end.

(** [argsort]: the positions of the array in increasing order of their
    values ([nan] last).  Equal values keep their relative order here; NumPy
    leaves the order of ties to the sorting kind, and no statement below
    depends on how a tie is ordered. *)
Fixpoint insert_sorted (p : nat * float64) (l : list (nat * float64))
  : list (nat * float64) :=
  match l with
  | [] => [p]
  | q :: l' => if bool_decide (np_lt q.2 p.2) then q :: insert_sorted p l'
               else p :: l
  end.

Definition np_argsort (xs : list float64) : list nat :=
  (foldr insert_sorted [] (zip (seq 0 (length xs)) xs)).*1.

(** [np.array] of a list of rows: the rows must have one length. *)
Definition np_array {A} (rows : list (list A)) : res (list (list A)) :=
  match rows with
  | [] => OK []
  | r :: rs =>
      if forallb (λ r', Nat.eqb (length r') (length r)) rs then OK rows
      else Raise ValueError
  end.

(** Broadcasting of two one-dimensional operands: equal lengths, or one of
    them of length 1. *)
Definition broadcast {A B C} (f : A → B → C) (xs : list A) (ys : list B)
  : res (list C) :=
  if Nat.eqb (length xs) (length ys) then OK (zip_with f xs ys)
  else match xs, ys with
       | [x], _ => OK (f x <$> ys)
       | _, [y] => OK ((λ x, f x y) <$> xs)
       | _, _ => Raise ValueError
       end.

(** ** Vocabulary and code space *)

Definition ALL_WORDS : list string := ["BOAT"; "CAT"; "RUM"; "DRAG"].

(** [tuple.index]: the first position of a word. *)
Definition tuple_index (word : string) (words : list string) : option nat :=
  fst <$> list_find (λ w, w = word) words.

Definition ALL_WORD_INDEX : gmap string nat :=
  list_to_map (omap (λ word, (λ i, (word, i)) <$> tuple_index word ALL_WORDS)
                    ALL_WORDS).

(** [itertools.permutations(pool, r)]: the [r]-length arrangements of the
    pool, in lexicographic order of the positions drawn. *)
Fixpoint permutations {A} (r : nat) (pool : list A) : list (list A) :=
  match r with
  | 0 => [[]]
  | S r' =>
      concat (imap (λ i x, (λ rest, x :: rest) <$> permutations r' (delete i pool))
                   pool)
  end.

Definition ALL_CODES : list (list nat) := permutations 3 (seq 0 4).

Definition LOG_PROB_ZERO : float64 := Fin (-100).

(** ** Random variables *)

(** The dataclass of the notebook.  [A] is the type of the entries of
    [log_probabilities] along its first axis: a float for the beliefs the
    notebook builds by hand, a whole row for what the size-reducing function
    returns. *)
Record NumpyRandomVariable (A : Type) : Type := {
  log_probabilities : list A;
  keyword_indices : list nat
}.
Arguments Build_NumpyRandomVariable {A} _ _.
Arguments log_probabilities {A} _.
Arguments keyword_indices {A} _.

Definition dict_get (word_index : gmap string nat) (word : string) : res nat :=
  match word_index !! word with Some i => OK i | None => Raise KeyError end.

Definition keyword_card : list string :=
  omap (λ i, ALL_WORDS !! i) [1; 0; 2; 3].

Definition code : list nat := [1; 3; 0].

Definition naive_clue_of (card : list string) (code : list nat) : res (list string) :=
  mapM (getitem card) code.

Definition naive_clue : res (list string) := naive_clue_of keyword_card code.

(** The full-support belief of the first cell: [log 0] everywhere, then 0 at
    the keyword. *)
Definition guesser_random_variable (keyword : string) (word_index : gmap string nat)
  : res (NumpyRandomVariable float64) :=
  let log_probabilities := replicate (size word_index) (flog (Fin 0)) in
  k ← dict_get word_index keyword;
  if decide (k < size word_index) then
    OK (Build_NumpyRandomVariable (<[k := Fin 0]> log_probabilities)
                                  (seq 0 (size word_index)))
  else Raise IndexError.

(** The certain beliefs of the last cell: one entry each. *)
Definition guesser_random_variables (keyword_card : list string)
    (word_index : gmap string nat) : res (list (NumpyRandomVariable float64)) :=
  mapM (λ keyword, k ← dict_get word_index keyword;
                   OK (Build_NumpyRandomVariable [Fin 0] [k]))
       keyword_card.

Definition clue_indices_of (word_index : gmap string nat) (clue : list string)
  : res (list nat) :=
  mapM (dict_get word_index) clue.

(** ** Heuristic *)

(** [np.NZERO] is the float zero (negative zero, which exact arithmetic does
    not distinguish). *)
Definition naive_clue_and_keyword_log_prob (clue_index keyword_index : nat) : float64 :=
  if decide (keyword_index = clue_index) then Fin 0 else LOG_PROB_ZERO.

(** ** Expectation engine *)

(** One entry of the batched computation: the last axis of the arrays the
    notebook passes, for one random variable and one clue. *)
Definition log_expected_probability (keyword_index_to_log_prob_func : nat → float64)
    (log_probabilities : list float64) (keyword_indices : list nat) : res float64 :=
  log_terms ← broadcast fadd log_probabilities
                 (keyword_index_to_log_prob_func <$> keyword_indices);
  max_log_term ← np_max log_terms;
  let log_offset_terms := (λ t, fsub t max_log_term) <$> log_terms in
  let offset_expectation := np_sum (fexp <$> log_offset_terms) in
  let log_expectation := fadd (flog offset_expectation) max_log_term in
  OK log_expectation.

(** The matrix [log_expected_probabilities] (random variables by clues). *)
Definition log_expectation_matrix (clue_and_keyword_to_log_probability_func : nat → nat → float64)
    (random_variables : list (NumpyRandomVariable float64)) (clue_indices : list nat)
  : res (list (list float64)) :=
  var_log_probabilities ← np_array (log_probabilities <$> random_variables);
  var_keyword_indices ← np_array (keyword_indices <$> random_variables);
  mapM (λ r, mapM (λ c, log_expected_probability
                          (clue_and_keyword_to_log_probability_func c) r.1 r.2)
                  clue_indices)
       (zip var_log_probabilities var_keyword_indices).

(** The diagonal of a matrix: entry [i] of row [i], as far as both exist. *)
Fixpoint diagonal_from {A} (i : nat) (rows : list (list A)) : list A :=
  match rows with
  | [] => []
  | row :: rows' =>
      match row !! i with
      | Some a => a :: diagonal_from (S i) rows'
      | None => []
      end
  end.

Definition diagonal {A} (rows : list (list A)) : list A := diagonal_from 0 rows.

(** [M[code].trace()]: the rows picked by the code, then the sum of the
    diagonal. *)
Definition np_trace (M : list (list float64)) (code : list nat) : res float64 :=
  rows ← mapM (getitem M) code;
  OK (np_sum (diagonal rows)).

Definition log_expected_probabilities_codes
    (clue_and_keyword_to_log_probability_func : nat → nat → float64)
    (random_variables : list (NumpyRandomVariable float64)) (clue_indices : list nat)
    (codes : list (list nat)) : res (list float64) :=
  log_expected_probabilities ←
    log_expectation_matrix clue_and_keyword_to_log_probability_func
                           random_variables clue_indices;
  mapM (np_trace log_expected_probabilities) codes.

Definition naive_log_expected_probabilities_codes :=
  log_expected_probabilities_codes naive_clue_and_keyword_log_prob.

(** [guess = ALL_CODES[np.argmax(log_expectations)]] *)
Definition guess (log_expectations : list float64) (codes : list (list nat))
  : res (list nat) :=
  i ← np_argmax log_expectations;
  getitem codes i.

(** The score of a code as the specification words it: the sum, over the
    positions [i] of the code, of the matrix entry at slot [s_i] and clue
    position [i]. *)
Fixpoint spec_code_entries (M : list (list float64)) (i : nat) (code : list nat)
  : option (list float64) :=
  match code with
  | [] => Some []
  | s :: code' =>
      x ← (M !! s ≫= λ row, row !! i);
      xs ← spec_code_entries M (S i) code';
      Some (x :: xs)
  end.

Definition spec_code_log_score (M : list (list float64)) (code : list nat)
  : option float64 :=
  np_sum <$> spec_code_entries M 0 code.

(** The expectation as the specification words it: the logarithm of the sum
    of the exponentials of the log-terms, without any shift. *)
Definition spec_log_expected_probability (score : nat → float64)
    (log_probabilities : list float64) (keyword_indices : list nat) : float64 :=
  flog (np_sum (fexp <$> zip_with fadd log_probabilities (score <$> keyword_indices))).

(** The full-support belief as the specification words it: log-probability
    0 at the keyword and the log-zero sentinel at every other index. *)
Definition spec_full_support_belief (k n : nat) : NumpyRandomVariable float64 :=
  Build_NumpyRandomVariable (<[k := Fin 0]> (replicate n LOG_PROB_ZERO)) (seq 0 n).

(** ** Size reduction of random variables *)

(** The caller passes one order of positions per row of log-probabilities;
    the broadcasting of a single order over several rows is not modelled. *)
Definition num_indices_for_cumulative_probability
    (log_probabilties : list (list float64))
    (keyword_indices_by_decreasing_probability : list (list nat))
    (cumulative_probability : R) : res (list nat) :=
  if decide (log_probabilties = [] ∨
             length log_probabilties
               ≠ length keyword_indices_by_decreasing_probability)
  then Raise IndexError else
  log_probabilties_by_decreasing_probability ←
    mapM (λ r, mapM (getitem r.1) r.2)
         (zip log_probabilties keyword_indices_by_decreasing_probability);
  earliest_index ←
    mapM (λ row, np_argmax_bool
                   ((λ c, fge c (flog (Fin cumulative_probability)))
                      <$> np_cumsum row))
         log_probabilties_by_decreasing_probability;
  OK ((λ e, e + 1) <$> earliest_index).

Definition random_vars_at_least_cumulative_probability
    (random_variables : list (NumpyRandomVariable float64))
    (cumulative_probability : R)
  : res (list (NumpyRandomVariable (list float64))) :=
  var_log_probabilities ← np_array (log_probabilities <$> random_variables);
  let keyword_indices_by_decreasing_probability :=
    (λ row, np_argsort (fneg <$> row)) <$> var_log_probabilities in
  num_indices ← num_indices_for_cumulative_probability var_log_probabilities
                   keyword_indices_by_decreasing_probability cumulative_probability;
  let reduced_keyword_indices :=
    take (max_list num_indices) <$> keyword_indices_by_decreasing_probability in
  reduced_var_log_probabilities ←
    mapM (mapM (getitem var_log_probabilities)) reduced_keyword_indices;
  OK (zip_with Build_NumpyRandomVariable
               reduced_var_log_probabilities reduced_keyword_indices).

(** ** Notions used by the statements *)

(** A log-probability that denotes a probability: finite, or [-inf] for
    probability zero. *)
Definition is_log_prob (a : float64) : Prop :=
  match a with Fin _ | NInf => True | _ => False end.

(** A finite float. *)
Definition is_finite (a : float64) : Prop :=
  match a with Fin _ => True | _ => False end.

(** The probability a log-probability denotes, and the total mass of a list
    of log-terms. *)
Definition prob (a : float64) : R :=
  match a with Fin x => exp x | _ => 0%R end.

Definition mass (ts : list float64) : R := foldr (λ t acc, (prob t + acc)%R) 0%R ts.

(** The real number held by a finite float. *)
Definition fin_val (a : float64) : R :=
  match a with Fin x => x | _ => 0%R end.

(** A batch of beliefs that stacks into arrays of width [S]. *)
Definition rectangular (S : nat) (rvs : list (NumpyRandomVariable float64)) : Prop :=
  Forall (λ rv, length (log_probabilities rv) = S ∧ length (keyword_indices rv) = S) rvs.

(** The value NumPy leaves in one cell, when there is one. *)
Definition cell_value (func : nat → nat → float64)
    (rv : NumpyRandomVariable float64) (c : nat) : float64 :=
  match log_expected_probability (func c) (log_probabilities rv) (keyword_indices rv) with
  | OK v => v
  | Raise _ => NaN
  end.

(** Entry [(s, i)] of a matrix. *)
Definition matrix_entry (M : list (list float64)) (s i : nat) : float64 :=
  default NaN (M !! s ≫= λ row, row !! i).

(** The certain belief [guesser_random_variables] builds for word index
    [k]. *)
Definition certain (k : nat) : NumpyRandomVariable float64 :=
  Build_NumpyRandomVariable [Fin 0] [k].

(** What a code scores against the clue of the true code [t] when every
    keyword is known for certain and the keywords are pairwise distinct:
    the sentinel once per digit that differs. *)
Definition round_trip_score (t code : list nat) : float64 :=
  np_sum (zip_with (λ s' s, if decide (s = s') then Fin 0 else LOG_PROB_ZERO) t code).

(** The intermediate values of the size reduction, row by row: the
    positions by decreasing probability, the log-probabilities in that
    order, the first position where the running sum reaches the logarithm of
    the threshold, the width kept for the whole batch and the positions
    kept. *)
Definition decreasing_order (row : list float64) : list nat :=
  np_argsort (fneg <$> row).

Definition sorted_row (row : list float64) : list float64 :=
  (λ s, default NaN (row !! s)) <$> decreasing_order row.

Definition earliest_index_of (p : R) (row : list float64) : nat :=
  default 0 (first_true ((λ c, fge c (flog (Fin p))) <$> np_cumsum (sorted_row row))).

Definition retained_width (p : R) (lps : list (list float64)) : nat :=
  max_list ((λ row, earliest_index_of p row + 1) <$> lps).

Definition retained_indices (p : R) (lps : list (list float64)) : list (list nat) :=
  take (retained_width p lps) <$> (decreasing_order <$> lps).

(** ** Example beliefs *)

(** Two words with probabilities 3/5 and 2/5, the likelier one first. *)
Definition belief_first_word : NumpyRandomVariable float64 :=
  Build_NumpyRandomVariable [Fin (ln (3/5)); Fin (ln (2/5))] [0; 1].

(** The same two probabilities, the likelier word second. *)
Definition belief_second_word : NumpyRandomVariable float64 :=
  Build_NumpyRandomVariable [Fin (ln (2/5)); Fin (ln (3/5))] [0; 1].

(** The log-probabilities [guesser_random_variable] gives a keyword of index
    [k] in the four-word vocabulary, and the four beliefs of the keyword
    card. *)
Definition full_support_row (k : nat) : list float64 :=
  <[k := Fin 0]> (replicate 4 NInf).

Definition full_support_beliefs : list (NumpyRandomVariable float64) :=
  (λ k, Build_NumpyRandomVariable (full_support_row k) (seq 0 4)) <$> [1; 0; 2; 3].

(** ** The first version of the engine *)

(** The second cell of the notebook defines the engine before the random
    variables carry their own keyword indices: the indices are the positions
    along the last axis of the log-probabilities
    ([np.indices(shape)[-1]]).  The third cell redefines both functions
    under the same names. *)
Module FirstVersion.

Definition log_expected_probability (keyword_index_to_log_prob_func : nat → float64)
    (log_probabilties : list float64) : res float64 :=
  let keyword_indices := seq 0 (length log_probabilties) in
  log_terms ← broadcast fadd log_probabilties
                 (keyword_index_to_log_prob_func <$> keyword_indices);
  max_log_term ← np_max log_terms;
  let log_offset_terms := (λ t, fsub t max_log_term) <$> log_terms in
  let offset_expectation := np_sum (fexp <$> log_offset_terms) in
  let log_expectation := fadd (flog offset_expectation) max_log_term in
  OK log_expectation.

Definition log_expected_probabilities_codes
    (clue_and_keyword_to_log_probability_func : nat → nat → float64)
    (random_variables : list (NumpyRandomVariable float64)) (clue_indices : list nat)
    (codes : list (list nat)) : res (list float64) :=
  var_log_probabilities ← np_array (log_probabilities <$> random_variables);
  log_expected_probabilities ←
    mapM (λ lps, mapM (λ c, log_expected_probability
                              (clue_and_keyword_to_log_probability_func c) lps)
                      clue_indices)
         var_log_probabilities;
  mapM (np_trace log_expected_probabilities) codes.

End FirstVersion.

(** ** The word index of a vocabulary *)

(** The dict comprehension [{word: words.index(word) for word in words}],
    of which [ALL_WORD_INDEX] is the instance at [ALL_WORDS]. *)
Definition word_index_of (words : list string) : gmap string nat :=
  list_to_map (omap (λ word, (λ i, (word, i)) <$> tuple_index word words) words).

(** ** Normalisation of an embedding vector (supervised guesser notebook) *)

(** [np.linalg.norm] of a vector, in exact arithmetic. *)
Definition linalg_norm (v : list R) : R :=
  sqrt (foldr Rplus 0%R ((λ x, (x * x)%R) <$> v)).

Definition normalize (v : list R) : list R :=
  let norm := linalg_norm v in
  if decide (norm = 0%R) then v else (λ x, (x / norm)%R) <$> v.

(** ** Further notions used by the statements *)

(** The belief [guesser_random_variable] builds for word index [k] in a
    vocabulary of [n] words. *)
Definition full_support (k n : nat) : NumpyRandomVariable float64 :=
  Build_NumpyRandomVariable (<[k := Fin 0]> (replicate n NInf)) (seq 0 n).

(** The logarithm of a probability between 0 and 1. *)
Definition is_log_of_probability (a : float64) : Prop :=
  match a with
  | Fin x => (x <= 0)%R
  | NInf => True
  | _ => False
  end.

(** The first position in decreasing order of probability. *)
Definition top_position (row : list float64) : nat :=
  default 0 (decreasing_order row !! 0).

(** The number of positions at which two codes differ. *)
Definition mismatches (t code : list nat) : nat :=
  length (filter (λ p, p.1 ≠ p.2) (zip t code)).

(** A belief over no keyword at all. *)
Definition empty_support_belief : NumpyRandomVariable float64 :=
  Build_NumpyRandomVariable [] [].

(** The shifted heuristic: a constant added to every score. *)
Definition shifted (c : R) (func : nat → nat → float64) : nat → nat → float64 :=
  λ clue k, fadd (func clue k) (Fin c).

(** * Properties *)

(** ** The code space *)

(** The 24 codes, in the lexicographic order [itertools.permutations]
    generates them; the code of the notebook sits at position 10. *)
Example ALL_CODES_enumeration :
  ALL_CODES
  = [[0; 1; 2]; [0; 1; 3]; [0; 2; 1]; [0; 2; 3]; [0; 3; 1]; [0; 3; 2];
     [1; 0; 2]; [1; 0; 3]; [1; 2; 0]; [1; 2; 3]; [1; 3; 0]; [1; 3; 2];
     [2; 0; 1]; [2; 0; 3]; [2; 1; 0]; [2; 1; 3]; [2; 3; 0]; [2; 3; 1];
     [3; 0; 1]; [3; 0; 2]; [3; 1; 0]; [3; 1; 2]; [3; 2; 0]; [3; 2; 1]].
Proof. reflexivity. Qed.

Example ALL_CODES_order : ALL_CODES !! 10 = Some code ∧ length ALL_CODES = 24.
Proof. split; reflexivity. Qed.

(** ** The exception monad *)

Section mapM_res.
Context {A B : Type} (f : A → res B).

Lemma mapM_OK_length l k : mapM f l = OK k → length k = length l.
Proof.
  revert k. induction l as [|x l IH]; intros k; simpl.
  - intros [= <-]. reflexivity.
  - destruct (f x) as [y|]; simpl; [|discriminate].
    destruct (mapM f l) as [k'|]; simpl; [|discriminate].
    intros [= <-]. simpl. f_equal. apply IH. reflexivity.
Qed.

Lemma mapM_OK_lookup l k i x :
  mapM f l = OK k → l !! i = Some x → ∃ y, k !! i = Some y ∧ f x = OK y.
Proof.
  revert k i. induction l as [|x' l IH]; intros k i; simpl; [discriminate 2|].
  destruct (f x') as [y|] eqn:Hy; simpl; [|discriminate].
  destruct (mapM f l) as [k'|]; simpl; [|discriminate].
  intros [= <-]. destruct i as [|i]; simpl.
  - intros [= <-]. eauto.
  - intros Hi. apply (IH k' i); [reflexivity | exact Hi].
Qed.

Lemma mapM_OK_intro (g : A → B) l :
  Forall (λ x, f x = OK (g x)) l → mapM f l = OK (g <$> l).
Proof.
  induction 1 as [|x l Hx _ IH]; simpl; [reflexivity|].
  rewrite Hx. simpl. rewrite IH. reflexivity.
Qed.

Lemma mapM_is_OK l :
  Forall (λ x, ∃ y, f x = OK y) l → ∃ k, mapM f l = OK k.
Proof.
  induction 1 as [|x l [y Hy] _ [k IH]]; simpl; [eauto|].
  rewrite Hy. simpl. rewrite IH. simpl. eauto.
Qed.
End mapM_res.

Lemma mapM_res_cons {A B} (f : A → res B) x l :
  mapM f (x :: l) = y ← f x; k ← mapM f l; OK (y :: k).
Proof. reflexivity. Qed.

Lemma getitem_OK {A} (l : list A) i a : getitem l i = OK a ↔ l !! i = Some a.
Proof.
  unfold getitem. destruct (l !! i); split; intros H; inversion H; reflexivity.
Qed.

(** ** The order of NumPy floats *)

Lemma np_lt_irrefl a : ¬ np_lt a a.
Proof. destruct a; simpl; try tauto. lra. Qed.

Lemma np_lt_trans a b c : np_lt a b → np_lt b c → np_lt a c.
Proof. destruct a, b, c; simpl; try tauto. lra. Qed.

Lemma np_lt_below a b c : ¬ np_lt a b → np_lt a c → np_lt b c.
Proof. destruct a, b, c; simpl; try tauto. lra. Qed.

Lemma np_lt_above a b c : np_lt c a → ¬ np_lt b a → np_lt c b.
Proof. destruct a, b, c; simpl; try tauto. lra. Qed.

Lemma np_lt_Fin x y : np_lt (Fin x) (Fin y) ↔ (x < y)%R.
Proof. reflexivity. Qed.

(** ** Arg-max *)

Lemma argmax_from_spec pre best besti xs :
  pre !! besti = Some best →
  (∀ j y, pre !! j = Some y → ¬ np_lt best y) →
  (∀ j y, j < besti → pre !! j = Some y → np_lt y best) →
  ∃ b, (pre ++ xs) !! argmax_from best besti (length pre) xs = Some b
       ∧ (∀ j y, (pre ++ xs) !! j = Some y → ¬ np_lt b y)
       ∧ (∀ j y, j < argmax_from best besti (length pre) xs →
                 (pre ++ xs) !! j = Some y → np_lt y b).
Proof.
  revert pre best besti.
  induction xs as [|x xs IH]; intros pre best besti Hb Hmax Hfirst; simpl.
  - rewrite app_nil_r. eauto.
  - replace (pre ++ x :: xs) with ((pre ++ [x]) ++ xs) by (rewrite <- app_assoc; reflexivity).
    replace (S (length pre)) with (length (pre ++ [x]))
      by (rewrite length_app; simpl; lia).
    case_bool_decide as Hlt; apply IH.
    + rewrite lookup_app_r by lia. rewrite Nat.sub_diag. reflexivity.
    + intros j y Hj. apply lookup_app_Some in Hj as [Hj|[_ Hj]].
      * intros Hxy. apply (Hmax j y Hj). eapply np_lt_trans; eassumption.
      * apply list_lookup_singleton_Some in Hj as [_ <-]. apply np_lt_irrefl.
    + intros j y Hlen Hj. rewrite lookup_app_l in Hj by lia.
      eapply np_lt_below; [apply (Hmax j y Hj) | exact Hlt].
    + apply lookup_app_l_Some. exact Hb.
    + intros j y Hj. apply lookup_app_Some in Hj as [Hj|[_ Hj]].
      * apply (Hmax j y Hj).
      * apply list_lookup_singleton_Some in Hj as [_ <-]. exact Hlt.
    + intros j y Hlen Hj. apply lookup_lt_Some in Hb.
      rewrite lookup_app_l in Hj by lia. apply (Hfirst j y Hlen Hj).
Qed.

Lemma np_argmax_spec xs i :
  np_argmax xs = OK i →
  ∃ b, xs !! i = Some b
       ∧ (∀ j y, xs !! j = Some y → ¬ np_lt b y)
       ∧ (∀ j y, j < i → xs !! j = Some y → np_lt y b).
Proof.
  destruct xs as [|x xs]; simpl; [discriminate|]. intros [= <-].
  apply (argmax_from_spec [x] x 0 xs).
  - reflexivity.
  - intros [|j] y; simpl; [|discriminate]. intros [= <-]. apply np_lt_irrefl.
  - intros j y Hj. lia.
Qed.

(** ** Maximum of an axis *)

Lemma fmax_upper a b : ¬ np_lt (fmax a b) a ∧ ¬ np_lt (fmax a b) b.
Proof.
  unfold fmax. case_bool_decide as Hlt; split.
  - intros Hc. apply (np_lt_irrefl a). eapply np_lt_trans; eassumption.
  - apply np_lt_irrefl.
  - apply np_lt_irrefl.
  - exact Hlt.
Qed.

Lemma fmax_cases a b : fmax a b = a ∨ fmax a b = b.
Proof. unfold fmax. case_bool_decide; auto. Qed.

Lemma foldl_fmax_spec a xs :
  foldl fmax a xs ∈ a :: xs
  ∧ ∀ y, y ∈ a :: xs → ¬ np_lt (foldl fmax a xs) y.
Proof.
  revert a. induction xs as [|x xs IH]; intros a; simpl.
  - split; [left|]. intros y Hy. apply list_elem_of_singleton in Hy as ->.
    apply np_lt_irrefl.
  - destruct (IH (fmax a x)) as [Hin Hmax]. split.
    + apply elem_of_cons in Hin as [->|Hin].
      * destruct (fmax_cases a x) as [->| ->]; [left | right; left].
      * right; right; exact Hin.
    + assert (Htop : ¬ np_lt (foldl fmax (fmax a x) xs) (fmax a x))
        by (apply Hmax; left).
      destruct (fmax_upper a x) as [Ha Hx].
      intros y Hy.
      apply elem_of_cons in Hy as [->|Hy]; [|apply elem_of_cons in Hy as [->|Hy]].
      * intros Hc. apply Htop. eapply np_lt_above; eassumption.
      * intros Hc. apply Htop. eapply np_lt_above; eassumption.
      * apply Hmax. right. exact Hy.
Qed.

Lemma np_max_spec xs m :
  np_max xs = OK m → m ∈ xs ∧ ∀ y, y ∈ xs → ¬ np_lt m y.
Proof.
  destruct xs as [|x xs]; simpl; [discriminate|]. intros [= <-].
  apply foldl_fmax_spec.
Qed.

(** ** Probability mass of a list of log-terms *)

Lemma mass_nonneg ts : (0 <= mass ts)%R.
Proof.
  induction ts as [|t ts IH]; simpl; [lra|].
  assert (0 <= prob t)%R; [|lra].
  destruct t; simpl; try lra. left. apply exp_pos.
Qed.

Lemma mass_pos ts : Exists is_finite ts → (0 < mass ts)%R.
Proof.
  induction 1 as [t ts Ht|t ts _ IH]; simpl.
  - destruct t; simpl in Ht; try tauto. simpl.
    pose proof (exp_pos x). pose proof (mass_nonneg ts). lra.
  - assert (0 <= prob t)%R; [|lra].
    destruct t; simpl; try lra. left. apply exp_pos.
Qed.

Lemma np_sum_cons x xs : np_sum (x :: xs) = fadd x (np_sum xs).
Proof. reflexivity. Qed.

Lemma np_sum_exp ts :
  Forall is_log_prob ts → np_sum (fexp <$> ts) = Fin (mass ts).
Proof.
  induction 1 as [|t ts Ht _ IH]; [reflexivity|].
  rewrite fmap_cons, np_sum_cons, IH.
  destruct t; simpl in *; try tauto; reflexivity.
Qed.

Lemma np_sum_exp_shifted m ts :
  Forall is_log_prob ts →
  np_sum (fexp <$> ((λ t, fsub t (Fin m)) <$> ts)) = Fin (exp (- m) * mass ts).
Proof.
  induction 1 as [|t ts Ht _ IH].
  - simpl. f_equal. lra.
  - rewrite !fmap_cons, np_sum_cons, IH.
    destruct t; simpl in *; try tauto; f_equal.
    + rewrite exp_plus. lra.
    + lra.
Qed.

Lemma flog_pos x : (0 < x)%R → flog (Fin x) = Fin (ln x).
Proof. intros Hx. simpl. case_decide; [reflexivity | contradiction]. Qed.

(** The stabilised log-sum-exp, whatever finite shift is taken out. *)
Lemma stabilised_lse m ts :
  Forall is_log_prob ts → Exists is_finite ts →
  fadd (flog (np_sum (fexp <$> ((λ t, fsub t (Fin m)) <$> ts)))) (Fin m)
  = Fin (ln (mass ts)).
Proof.
  intros Hts Hfin. rewrite np_sum_exp_shifted by exact Hts.
  pose proof (mass_pos ts Hfin) as Hpos. pose proof (exp_pos (- m)) as Hexp.
  rewrite flog_pos by (apply Rmult_lt_0_compat; assumption).
  simpl. f_equal. rewrite ln_mult by assumption. rewrite ln_exp. lra.
Qed.

Lemma np_max_finite ts m :
  Forall is_log_prob ts → Exists is_finite ts → np_max ts = OK m → is_finite m.
Proof.
  intros Hts Hfin Hm. apply np_max_spec in Hm as [Hin Hmax].
  apply Exists_exists in Hfin as (t & Ht & Hft).
  rewrite Forall_forall in Hts. pose proof (Hts m Hin) as Hlm.
  specialize (Hmax t Ht).
  destruct m, t; simpl in *; tauto.
Qed.

Lemma log_terms_is_log_prob (func : nat → float64) lps (kis : list nat) :
  Forall is_log_prob lps → Forall (λ k, is_finite (func k)) kis →
  Forall is_log_prob (zip_with fadd lps (func <$> kis)).
Proof.
  intros Hl. revert kis. induction Hl as [|a lps Ha _ IH]; intros kis Hk; simpl.
  - constructor.
  - destruct Hk as [|k kis Hk Hks]; simpl; constructor.
    + destruct a, (func k); simpl in *; tauto.
    + apply IH. exact Hks.
Qed.

Lemma log_terms_some_finite (func : nat → float64) lps (kis : list nat) :
  length lps = length kis →
  Exists is_finite lps → Forall (λ k, is_finite (func k)) kis →
  Exists is_finite (zip_with fadd lps (func <$> kis)).
Proof.
  intros Hlen Hl. revert kis Hlen.
  induction Hl as [a lps Ha|a lps _ IH]; intros [|k kis] Hlen Hk;
    simpl in *; try discriminate; inversion Hk; subst.
  - left. destruct a, (func k); simpl in *; tauto.
  - right. apply IH; [congruence | assumption].
Qed.

(** ** One entry of the expectation matrix *)

Lemma broadcast_same {A B C} (f : A → B → C) xs ys :
  length xs = length ys → broadcast f xs ys = OK (zip_with f xs ys).
Proof. intros H. unfold broadcast. rewrite H, Nat.eqb_refl. reflexivity. Qed.

Lemma log_expected_probability_total (func : nat → float64) lps (kis : list nat) :
  length lps = length kis → lps ≠ [] →
  ∃ v, log_expected_probability func lps kis = OK v.
Proof.
  intros Hlen Hne. unfold log_expected_probability.
  rewrite broadcast_same by (rewrite length_fmap; exact Hlen). simpl.
  destruct lps as [|a lps]; [congruence|].
  destruct kis as [|k kis]; [discriminate|]. simpl. eauto.
Qed.

Lemma log_expected_probability_value (func : nat → float64) lps (kis : list nat) :
  length lps = length kis →
  Forall is_log_prob lps → Exists is_finite lps →
  Forall (λ k, is_finite (func k)) kis →
  log_expected_probability func lps kis
  = OK (Fin (ln (mass (zip_with fadd lps (func <$> kis))))).
Proof.
  intros Hlen Hlps Hfin Hfunc. unfold log_expected_probability.
  rewrite broadcast_same by (rewrite length_fmap; exact Hlen). simpl.
  pose proof (log_terms_is_log_prob func lps kis Hlps Hfunc) as Hts.
  pose proof (log_terms_some_finite func lps kis Hlen Hfin Hfunc) as Hsome.
  destruct (np_max (zip_with fadd lps (func <$> kis))) as [m|e] eqn:Hmax.
  - simpl. pose proof (np_max_finite _ _ Hts Hsome Hmax) as Hm.
    destruct m as [m| | |]; simpl in Hm; try tauto.
    f_equal. apply stabilised_lse; assumption.
  - destruct (zip_with fadd lps (func <$> kis)); [inversion Hsome | discriminate].
Qed.

(** A belief with a single entry: the expectation is the log-term itself. *)
Lemma log_expected_probability_certain (func : nat → float64) x k y :
  func k = Fin y →
  log_expected_probability func [Fin x] [k] = OK (Fin (x + y)).
Proof.
  intros Hy.
  rewrite log_expected_probability_value.
  - simpl. rewrite Hy. simpl. do 2 f_equal. rewrite Rplus_0_r. apply ln_exp.
  - reflexivity.
  - repeat constructor.
  - left. exact I.
  - constructor; [rewrite Hy; exact I | constructor].
Qed.

(** ** The expectation matrix *)

Lemma np_array_OK {A} (S : nat) (rows : list (list A)) :
  Forall (λ r, length r = S) rows → np_array rows = OK rows.
Proof.
  destruct 1 as [|r rs Hr Hrs]; simpl; [reflexivity|].
  replace (forallb _ rs) with true; [reflexivity|].
  symmetry. apply forallb_forall. intros r' Hin.
  rewrite Forall_forall in Hrs. apply list_elem_of_In in Hin.
  rewrite (Hrs r' Hin), Hr. apply Nat.eqb_refl.
Qed.

Lemma zip_fmap_same {A B C} (f : A → B) (g : A → C) (l : list A) :
  zip (f <$> l) (g <$> l) = (λ a, (f a, g a)) <$> l.
Proof. induction l as [|a l IH]; simpl; [reflexivity|]. f_equal. exact IH. Qed.

Lemma mapM_fmap_OK_intro {A B C} (f : B → res C) (h : A → B) (g : A → C) l :
  Forall (λ x, f (h x) = OK (g x)) l → mapM f (h <$> l) = OK (g <$> l).
Proof.
  induction 1 as [|x l Hx _ IH]; [reflexivity|].
  rewrite !fmap_cons, mapM_res_cons, Hx, IH. reflexivity.
Qed.

Lemma log_expectation_matrix_OK func rvs clue S
    (cell : NumpyRandomVariable float64 → nat → float64) :
  rectangular S rvs →
  (∀ rv c, rv ∈ rvs → c ∈ clue →
     log_expected_probability (func c) (log_probabilities rv) (keyword_indices rv)
     = OK (cell rv c)) →
  log_expectation_matrix func rvs clue = OK ((λ rv, cell rv <$> clue) <$> rvs).
Proof.
  intros Hrect Hcell. unfold log_expectation_matrix.
  rewrite (np_array_OK S), (np_array_OK S); simpl.
  - rewrite zip_fmap_same.
    apply mapM_fmap_OK_intro. apply Forall_forall. intros rv Hrv. simpl.
    apply mapM_OK_intro. apply Forall_forall. intros c Hc.
    apply Hcell; assumption.
  - apply Forall_fmap. eapply Forall_impl; [exact Hrect|]. simpl. tauto.
  - apply Forall_fmap. eapply Forall_impl; [exact Hrect|]. simpl. tauto.
Qed.

Lemma log_expectation_matrix_total func rvs clue S :
  0 < S → rectangular S rvs →
  log_expectation_matrix func rvs clue
  = OK ((λ rv, cell_value func rv <$> clue) <$> rvs).
Proof.
  intros HS Hrect. apply (log_expectation_matrix_OK _ _ _ S); [exact Hrect|].
  intros rv c Hrv _. unfold rectangular in Hrect. rewrite Forall_forall in Hrect.
  destruct (Hrect rv Hrv) as [Hl Hk]. unfold cell_value.
  destruct (log_expected_probability_total (func c) (log_probabilities rv)
              (keyword_indices rv)) as [v ->]; [congruence | | reflexivity].
  intros Hnil. rewrite Hnil in Hl. simpl in Hl. lia.
Qed.

(** ** Scores of the codes *)

Lemma np_trace_entries M code (entry : nat → nat → float64) k :
  (∀ i s, code !! i = Some s →
     ∃ row, M !! s = Some row ∧ row !! (k + i) = Some (entry s (k + i))) →
  ∃ rows, mapM (getitem M) code = OK rows
          ∧ diagonal_from k rows = imap (λ i s, entry s (k + i)) code
          ∧ spec_code_entries M k code = Some (imap (λ i s, entry s (k + i)) code).
Proof.
  revert k. induction code as [|s code IH]; intros k Hent.
  - exists []. repeat split; reflexivity.
  - destruct (Hent 0 s eq_refl) as (row & Hrow & Hcell).
    rewrite Nat.add_0_r in Hcell.
    destruct (IH (S k)) as (rows & Hrows & Hdiag & Hspec).
    { intros i s' Hi. destruct (Hent (S i) s' Hi) as (row' & Hrow' & Hcell').
      exists row'. rewrite Nat.add_succ_r in Hcell'. auto. }
    exists (row :: rows). rewrite mapM_res_cons.
    assert (Hget : getitem M s = OK row) by (apply getitem_OK; exact Hrow).
    rewrite Hget, Hrows. simpl. rewrite Hrow. simpl. rewrite Hcell, Hdiag, Hspec.
    simpl. rewrite Nat.add_0_r.
    assert (Hext : imap (λ i s0, entry s0 (S (k + i))) code
                   = imap ((λ i s0, entry s0 (k + i)) ∘ S) code).
    { apply imap_ext. intros i x _. simpl. rewrite Nat.add_succ_r. reflexivity. }
    rewrite Hext. repeat split; reflexivity.
Qed.

Lemma np_trace_OK M code (entry : nat → nat → float64) :
  (∀ i s, code !! i = Some s →
     ∃ row, M !! s = Some row ∧ row !! i = Some (entry s i)) →
  np_trace M code = OK (np_sum (imap (λ i s, entry s i) code))
  ∧ spec_code_log_score M code = Some (np_sum (imap (λ i s, entry s i) code)).
Proof.
  intros Hent. destruct (np_trace_entries M code entry 0 Hent)
    as (rows & Hrows & Hdiag & Hspec).
  unfold np_trace, spec_code_log_score, diagonal.
  rewrite Hrows, Hspec. simpl. rewrite Hdiag. split; reflexivity.
Qed.

Lemma matrix_entry_lookup (M : list (list float64)) C code i s :
  Forall (λ row, length row = C) M →
  length code ≤ C → Forall (λ s, s < length M) code →
  code !! i = Some s →
  ∃ row, M !! s = Some row ∧ row !! i = Some (matrix_entry M s i).
Proof.
  intros HM HC Hcode Hi.
  rewrite Forall_forall in Hcode.
  assert (Hs : s < length M) by (apply Hcode; eapply list_elem_of_lookup_2; exact Hi).
  apply lookup_lt_is_Some_2 in Hs as [row Hrow]. exists row. split; [exact Hrow|].
  rewrite Forall_forall in HM.
  assert (Hlen : length row = C) by (apply HM; eapply list_elem_of_lookup_2; exact Hrow).
  apply lookup_lt_Some in Hi.
  destruct (lookup_lt_is_Some_2 row i) as [x Hx]; [lia|].
  unfold matrix_entry. rewrite Hrow. simpl. rewrite Hx. reflexivity.
Qed.

Lemma codes_scores_OK M C codes :
  Forall (λ row, length row = C) M →
  Forall (λ code, length code ≤ C ∧ Forall (λ s, s < length M) code) codes →
  mapM (np_trace M) codes
  = OK ((λ code, np_sum (imap (λ i s, matrix_entry M s i) code)) <$> codes).
Proof.
  intros HM Hcodes. apply mapM_OK_intro.
  eapply Forall_impl; [exact Hcodes|]. intros code [Hlen Hin]. simpl.
  apply np_trace_OK. intros i s Hi.
  eapply matrix_entry_lookup; eassumption.
Qed.

(** C1. For beliefs of one common non-empty width, whatever the heuristic and
    the clue, and for codes that name existing slots and have one digit per
    clue word: the decoder returns one log-score per code, in the order of
    the code enumeration it was given, and the log-score of a code
    [(s_1, ..., s_L)] is the sum over the positions [i] of the entry of the
    expectation matrix at slot [s_i] and clue position [i]. *)
Theorem log_expected_probabilities_codes_sums
    func rvs clue_indices codes S :
  0 < S → rectangular S rvs →
  Forall (λ code, length code = length clue_indices
                  ∧ Forall (λ s, s < length rvs) code) codes →
  ∃ M scores,
    log_expectation_matrix func rvs clue_indices = OK M
    ∧ log_expected_probabilities_codes func rvs clue_indices codes = OK scores
    ∧ length scores = length codes
    ∧ ∀ n code, codes !! n = Some code →
        ∃ x, spec_code_log_score M code = Some x ∧ scores !! n = Some x.
Proof.
  intros HS Hrect Hcodes.
  pose proof (log_expectation_matrix_total func rvs clue_indices S HS Hrect) as HM.
  set (M := (λ rv, cell_value func rv <$> clue_indices) <$> rvs) in *.
  assert (Hrows : Forall (λ row, length row = length clue_indices) M).
  { apply Forall_fmap, Forall_forall. intros rv _. simpl. apply length_fmap. }
  assert (HlenM : length M = length rvs) by apply length_fmap.
  assert (Hcodes' : Forall (λ code, length code ≤ length clue_indices
                                   ∧ Forall (λ s, s < length M) code) codes).
  { eapply Forall_impl; [exact Hcodes|]. intros code [Hl Hs]. simpl.
    rewrite HlenM. split; [lia | exact Hs]. }
  exists M, ((λ code, np_sum (imap (λ i s, matrix_entry M s i) code)) <$> codes).
  split; [exact HM|]. split; [|split].
  - unfold log_expected_probabilities_codes. rewrite HM. simpl.
    eapply codes_scores_OK; eassumption.
  - apply length_fmap.
  - intros n code Hn. eexists. split.
    + rewrite Forall_forall in Hcodes'.
      destruct (Hcodes' code) as [Hl Hs]; [eapply list_elem_of_lookup_2; exact Hn|].
      apply np_trace_OK. intros i s Hi. eapply matrix_entry_lookup; eassumption.
    + rewrite list_lookup_fmap, Hn. reflexivity.
Qed.

(** C2. For a belief whose log-probabilities denote probabilities (finite, or
    [-inf] for zero) with at least one non-zero, and a heuristic that is
    finite on the support: the engine takes the maximum of the summed
    log-terms, subtracts it before exponentiating, sums, takes the logarithm
    and adds the maximum back; the value it returns is the logarithm of the
    sum of the exponentials of the log-terms over the support. *)
Theorem log_expected_probability_is_log_sum_exp
    (score : nat → float64) lps (kis : list nat) :
  length lps = length kis →
  Forall is_log_prob lps → Exists is_finite lps →
  Forall (λ k, is_finite (score k)) kis →
  ∃ max_log_term,
    let log_terms := zip_with fadd lps (score <$> kis) in
    np_max log_terms = OK max_log_term
    ∧ max_log_term ∈ log_terms
    ∧ (∀ t, t ∈ log_terms → ¬ np_lt max_log_term t)
    ∧ log_expected_probability score lps kis
      = OK (fadd (flog (np_sum (fexp <$> ((λ t, fsub t max_log_term) <$> log_terms))))
                 max_log_term)
    ∧ log_expected_probability score lps kis
      = OK (spec_log_expected_probability score lps kis).
Proof.
  intros Hlen Hlps Hfin Hsc.
  pose proof (log_terms_is_log_prob score lps kis Hlps Hsc) as Hts.
  pose proof (log_terms_some_finite score lps kis Hlen Hfin Hsc) as Hsome.
  destruct (np_max (zip_with fadd lps (score <$> kis))) as [m|e] eqn:Hmax.
  - exists m. simpl. destruct (np_max_spec _ _ Hmax) as [Hin Hup].
    repeat split; try assumption.
    + unfold log_expected_probability.
      rewrite broadcast_same by (rewrite length_fmap; exact Hlen). simpl.
      rewrite Hmax. reflexivity.
    + rewrite log_expected_probability_value by assumption.
      unfold spec_log_expected_probability.
      rewrite np_sum_exp by exact Hts.
      rewrite flog_pos by (apply mass_pos; exact Hsome). reflexivity.
  - destruct (zip_with fadd lps (score <$> kis)); [inversion Hsome | discriminate].
Qed.

(** C6. For a score vector with one entry per code: the guess is the code at
    the first position where the score is maximal, so among codes tied for
    the maximum it is the earliest of the enumeration. *)
Theorem guess_first_maximal (log_expectations : list float64) (codes : list (list nat)) :
  log_expectations ≠ [] → length log_expectations = length codes →
  ∃ i best guessed,
    guess log_expectations codes = OK guessed
    ∧ codes !! i = Some guessed
    ∧ log_expectations !! i = Some best
    ∧ (∀ j y, log_expectations !! j = Some y → ¬ np_lt best y)
    ∧ (∀ j y, j < i → log_expectations !! j = Some y → np_lt y best).
Proof.
  intros Hne Hlen. unfold guess.
  destruct (np_argmax log_expectations) as [i|e] eqn:Harg.
  - destruct (np_argmax_spec _ _ Harg) as (b & Hb & Hmax & Hfirst).
    destruct (lookup_lt_is_Some_2 codes i) as [c Hc].
    { rewrite <- Hlen. eapply lookup_lt_Some; exact Hb. }
    exists i, b, c. simpl. unfold getitem. rewrite Hc. auto.
  - destruct log_expectations; [congruence | discriminate].
Qed.

(** ** Certain beliefs *)

Lemma mapM_bind_OK {A B C} (f : A → res B) (g : B → C) (l : list A) (k : list B) :
  mapM f l = OK k → mapM (λ x, y ← f x; OK (g y)) l = OK (g <$> k).
Proof.
  revert k. induction l as [|x l IH]; intros k.
  - intros [= <-]. reflexivity.
  - rewrite !mapM_res_cons. destruct (f x) as [y|]; [|discriminate]. simpl.
    destruct (mapM f l) as [k'|]; [|discriminate]. simpl.
    intros [= <-]. rewrite (IH k' eq_refl). reflexivity.
Qed.

Lemma guesser_random_variables_OK card word_index ks :
  clue_indices_of word_index card = OK ks →
  guesser_random_variables card word_index = OK (certain <$> ks).
Proof. intros H. apply (mapM_bind_OK _ certain). exact H. Qed.

Lemma log_expected_probability_certain0 (func : nat → float64) k :
  is_finite (func k) →
  log_expected_probability func [Fin 0] [k] = OK (func k).
Proof.
  intros Hk. destruct (func k) as [y| | |] eqn:Hy; simpl in Hk; try tauto.
  rewrite (log_expected_probability_certain func 0 k y Hy).
  do 2 f_equal. lra.
Qed.

Lemma rectangular_certain ks : rectangular 1 (certain <$> ks).
Proof. apply Forall_fmap, Forall_forall. intros k _. split; reflexivity. Qed.

Lemma certain_matrix (func : nat → nat → float64) ks clue_idx :
  (∀ c k, c ∈ clue_idx → k ∈ ks → is_finite (func c k)) →
  log_expectation_matrix func (certain <$> ks) clue_idx
  = OK ((λ k, (λ c, func c k) <$> clue_idx) <$> ks).
Proof.
  intros Hfin.
  rewrite (log_expectation_matrix_OK func (certain <$> ks) clue_idx 1
             (λ rv c, match keyword_indices rv with
                      | [k] => func c k
                      | _ => NaN
                      end)).
  - rewrite <- list_fmap_compose. reflexivity.
  - apply rectangular_certain.
  - intros rv c Hrv Hc. apply list_elem_of_fmap in Hrv as (k & -> & Hk). simpl.
    apply log_expected_probability_certain0. apply Hfin; assumption.
Qed.

Lemma naive_finite c k : is_finite (naive_clue_and_keyword_log_prob c k).
Proof. unfold naive_clue_and_keyword_log_prob. case_decide; exact I. Qed.

Lemma mapM_getitem_OK {A} (d : A) (l : list A) (code : list nat) :
  Forall (λ s, s < length l) code →
  mapM (getitem l) code = OK ((λ s, default d (l !! s)) <$> code).
Proof.
  intros Hcode. apply mapM_OK_intro. eapply Forall_impl; [exact Hcode|].
  intros s Hs. simpl. apply lookup_lt_is_Some_2 in Hs as [a Ha].
  unfold getitem. rewrite Ha. reflexivity.
Qed.

(** The digits of the codes of the notebook: three slots out of four. *)
Lemma ALL_CODES_shape code :
  code ∈ ALL_CODES → ∃ a b c, code = [a; b; c] ∧ a < 4 ∧ b < 4 ∧ c < 4.
Proof.
  assert (H : Forall (λ code, ∃ a b c, code = [a; b; c] ∧ a < 4 ∧ b < 4 ∧ c < 4)
                     ALL_CODES).
  { unfold ALL_CODES. simpl.
    repeat (constructor; [do 3 eexists; split; [reflexivity|lia]|]).
    constructor. }
  rewrite Forall_forall in H. apply H.
Qed.

(** ** The round trip of the notebook *)

Lemma naive_on_card (ks : list nat) a b :
  NoDup ks → a < length ks → b < length ks →
  naive_clue_and_keyword_log_prob (default 0 (ks !! b)) (default 0 (ks !! a))
  = if decide (a = b) then Fin 0 else LOG_PROB_ZERO.
Proof.
  intros Hnd Ha Hb.
  apply lookup_lt_is_Some_2 in Ha as [ka Hka].
  apply lookup_lt_is_Some_2 in Hb as [kb Hkb].
  rewrite Hka, Hkb. simpl. unfold naive_clue_and_keyword_log_prob.
  destruct (decide (a = b)) as [->|Hne].
  - rewrite Hka in Hkb. injection Hkb as ->. rewrite decide_True; reflexivity.
  - rewrite decide_False; [reflexivity|]. intros ->. apply Hne.
    eapply NoDup_lookup; eassumption.
Qed.

Lemma certain_naive_entry (ks clue_idx : list nat) s i c :
  s < length ks → clue_idx !! i = Some c →
  matrix_entry ((λ k, (λ c, naive_clue_and_keyword_log_prob c k) <$> clue_idx) <$> ks) s i
  = naive_clue_and_keyword_log_prob c (default 0 (ks !! s)).
Proof.
  intros Hs Hc. apply lookup_lt_is_Some_2 in Hs as [k Hk].
  unfold matrix_entry. rewrite list_lookup_fmap, Hk. simpl.
  rewrite list_lookup_fmap, Hc. reflexivity.
Qed.

Lemma round_trip_scores (ks t : list nat) :
  NoDup ks → length ks = 4 → t ∈ ALL_CODES →
  naive_log_expected_probabilities_codes
    (certain <$> ks) ((λ s, default 0 (ks !! s)) <$> t) ALL_CODES
  = OK (round_trip_score t <$> ALL_CODES).
Proof.
  intros Hnd Hlen Ht.
  destruct (ALL_CODES_shape t Ht) as (t0 & t1 & t2 & -> & Ht0 & Ht1 & Ht2).
  unfold naive_log_expected_probabilities_codes, log_expected_probabilities_codes.
  rewrite certain_matrix by (intros; apply naive_finite).
  change (mapM (np_trace ((λ k, (λ c, naive_clue_and_keyword_log_prob c k)
                                  <$> ((λ s, default 0 (ks !! s)) <$> [t0; t1; t2])) <$> ks))
               ALL_CODES
          = OK (round_trip_score [t0; t1; t2] <$> ALL_CODES)).
  set (clue_idx := (λ s, default 0 (ks !! s)) <$> [t0; t1; t2]).
  set (M := (λ k, (λ c, naive_clue_and_keyword_log_prob c k) <$> clue_idx) <$> ks).
  rewrite (codes_scores_OK M 3).
  - f_equal. apply Forall_fmap_ext, Forall_forall. intros code' Hcode'.
    destruct (ALL_CODES_shape code' Hcode') as (a & b & c & -> & Ha & Hb & Hc).
    unfold round_trip_score. simpl. unfold M.
    rewrite (certain_naive_entry ks clue_idx a 0 (default 0 (ks !! t0))) by (reflexivity || lia).
    rewrite (certain_naive_entry ks clue_idx b 1 (default 0 (ks !! t1))) by (reflexivity || lia).
    rewrite (certain_naive_entry ks clue_idx c 2 (default 0 (ks !! t2))) by (reflexivity || lia).
    rewrite !naive_on_card by (assumption || lia). reflexivity.
  - apply Forall_fmap, Forall_forall. intros k _. reflexivity.
  - apply Forall_forall. intros code' Hcode'.
    destruct (ALL_CODES_shape code' Hcode') as (a & b & c & -> & Ha & Hb & Hc).
    unfold M. rewrite length_fmap, Hlen. split; [simpl; lia|].
    repeat (constructor; [assumption|]). constructor.
Qed.

Lemma round_trip_score_cases t code' :
  t ∈ ALL_CODES → code' ∈ ALL_CODES →
  (code' = t ∧ round_trip_score t code' = Fin 0)
  ∨ (code' ≠ t ∧ ∃ x, round_trip_score t code' = Fin x ∧ (x <= -100)%R).
Proof.
  intros Ht Hc.
  destruct (ALL_CODES_shape t Ht) as (t0 & t1 & t2 & -> & _).
  destruct (ALL_CODES_shape code' Hc) as (a & b & c & -> & _).
  unfold round_trip_score, LOG_PROB_ZERO. simpl.
  destruct (decide (a = t0)) as [->|Ha], (decide (b = t1)) as [->|Hb],
           (decide (c = t2)) as [->|Hc']; simpl;
    first [ left; split; [reflexivity | f_equal; lra]
          | right; split; [congruence | eexists; split; [reflexivity | lra]] ].
Qed.

(** C5. For a card of four keywords with pairwise distinct word indices and
    any code of the code space: with a certain belief per slot and the naive
    heuristic, on the clue read off the card at the digits of the code, the
    guess is that code; its log-score is 0 and every other code scores at
    most the sentinel. *)
Theorem decode_round_trip (card : list string) (word_index : gmap string nat)
    (ks : list nat) (t : list nat) :
  length card = 4 →
  clue_indices_of word_index card = OK ks → NoDup ks →
  t ∈ ALL_CODES →
  ∃ rvs clue clue_idx scores,
    guesser_random_variables card word_index = OK rvs
    ∧ naive_clue_of card t = OK clue
    ∧ clue_indices_of word_index clue = OK clue_idx
    ∧ naive_log_expected_probabilities_codes rvs clue_idx ALL_CODES = OK scores
    ∧ guess scores ALL_CODES = OK t
    ∧ ∀ n other, ALL_CODES !! n = Some other →
        if decide (other = t) then scores !! n = Some (Fin 0)
        else ∃ x, scores !! n = Some (Fin x) ∧ (x <= -100)%R.
Proof.
  intros Hcard Hks Hnd Ht.
  assert (Hlen : length ks = 4).
  { rewrite <- Hcard. eapply mapM_OK_length. exact Hks. }
  destruct (ALL_CODES_shape t Ht) as (t0 & t1 & t2 & Heq & Ht0 & Ht1 & Ht2).
  assert (Hdigits : Forall (λ s, s < 4) t).
  { subst t. repeat (constructor; [assumption|]). constructor. }
  exists (certain <$> ks), ((λ s, default "" (card !! s)) <$> t),
         ((λ s, default 0 (ks !! s)) <$> t), (round_trip_score t <$> ALL_CODES).
  assert (Hscore : ∀ n other, ALL_CODES !! n = Some other →
            if decide (other = t) then
              (round_trip_score t <$> ALL_CODES) !! n = Some (Fin 0)
            else ∃ x, (round_trip_score t <$> ALL_CODES) !! n = Some (Fin x)
                      ∧ (x <= -100)%R).
  { intros n other Hn. rewrite list_lookup_fmap, Hn. simpl.
    destruct (round_trip_score_cases t other Ht) as [[-> Hs]|[Hne (x & Hs & Hx)]].
    - eapply list_elem_of_lookup_2; exact Hn.
    - rewrite decide_True by reflexivity. rewrite Hs. reflexivity.
    - rewrite decide_False by exact Hne. exists x. rewrite Hs. auto. }
  split; [apply guesser_random_variables_OK; exact Hks|].
  split; [apply mapM_getitem_OK; rewrite Hcard; exact Hdigits|].
  split.
  { unfold clue_indices_of. apply mapM_fmap_OK_intro.
    eapply Forall_impl; [exact Hdigits|]. intros s Hs. simpl in Hs |- *.
    destruct (lookup_lt_is_Some_2 card s) as [w Hw]; [lia|].
    destruct (mapM_OK_lookup _ _ _ _ _ Hks Hw) as (k & Hk & Hget).
    rewrite Hw, Hk. exact Hget. }
  split; [apply round_trip_scores; assumption|].
  split; [|exact Hscore].
  unfold guess.
  destruct (np_argmax (round_trip_score t <$> ALL_CODES)) as [i|e] eqn:Harg;
    [|discriminate].
  destruct (np_argmax_spec _ _ Harg) as (b & Hb & Hmax & _).
  apply list_elem_of_lookup_1 in Ht as [n0 Hn0].
  pose proof (Hscore n0 t Hn0) as H0. rewrite decide_True in H0 by reflexivity.
  specialize (Hmax n0 (Fin 0) H0).
  destruct (lookup_lt_is_Some_2 ALL_CODES i) as [ci Hci].
  { apply lookup_lt_Some in Hb. rewrite length_fmap in Hb. exact Hb. }
  simpl. unfold getitem. rewrite Hci.
  pose proof (Hscore i ci Hci) as Hi.
  destruct (decide (ci = t)) as [->|Hne]; [reflexivity|].
  destruct Hi as (x & Hx & Hle). rewrite Hb in Hx. injection Hx as ->.
  exfalso. apply Hmax. simpl. lra.
Qed.

(** ** Certain beliefs against full-support beliefs *)

Lemma is_finite_val a : is_finite a → a = Fin (fin_val a).
Proof. destruct a; simpl; tauto. Qed.

Lemma flog_zero : flog (Fin 0) = NInf.
Proof.
  simpl. rewrite decide_False by lra. rewrite decide_True by reflexivity.
  reflexivity.
Qed.

Lemma mass_all_zero (g : nat → float64) n off :
  (∀ j, is_finite (g j)) →
  mass (zip_with fadd (replicate n NInf) (g <$> seq off n)) = 0%R.
Proof.
  intros Hg. revert off. induction n as [|n IH]; intros off; simpl; [reflexivity|].
  rewrite IH. pose proof (Hg off) as Hoff.
  destruct (g off); simpl in *; try tauto. lra.
Qed.

Lemma mass_point (g : nat → float64) n k off :
  k < n → (∀ j, is_finite (g j)) →
  mass (zip_with fadd (<[k := Fin 0]> (replicate n NInf)) (g <$> seq off n))
  = exp (fin_val (g (off + k))).
Proof.
  intros Hk Hg. revert k off Hk.
  induction n as [|n IH]; intros k off Hk; [lia|].
  destruct k as [|k]; simpl.
  - rewrite mass_all_zero by exact Hg. rewrite Nat.add_0_r.
    pose proof (Hg off) as Hoff.
    destruct (g off); simpl in *; try tauto. rewrite Rplus_0_l. lra.
  - rewrite IH by lia. rewrite Nat.add_succ_r. pose proof (Hg off) as Hoff.
    destruct (g off); simpl in *; try tauto. lra.
Qed.

Lemma point_is_log_prob n k :
  Forall is_log_prob (<[k := Fin 0]> (replicate n NInf)).
Proof.
  apply Forall_insert; [|exact I]. apply Forall_replicate. exact I.
Qed.

Lemma point_some_finite n k :
  k < n → Exists is_finite (<[k := Fin 0]> (replicate n NInf)).
Proof.
  intros Hk. apply Exists_exists. exists (Fin 0). split; [|exact I].
  apply list_elem_of_lookup. exists k. apply list_lookup_insert_eq.
  rewrite length_replicate. exact Hk.
Qed.

Lemma log_expected_probability_point (g : nat → float64) n k :
  k < n → (∀ j, is_finite (g j)) →
  log_expected_probability g (<[k := Fin 0]> (replicate n NInf)) (seq 0 n) = OK (g k).
Proof.
  intros Hk Hg. rewrite log_expected_probability_value.
  - rewrite mass_point by assumption. rewrite ln_exp. simpl.
    rewrite <- is_finite_val by apply Hg. reflexivity.
  - rewrite length_insert, length_replicate, length_seq. reflexivity.
  - apply point_is_log_prob.
  - apply point_some_finite. exact Hk.
  - apply Forall_forall. intros j _. apply Hg.
Qed.

Lemma rectangular_singleton (rv : NumpyRandomVariable float64) S :
  length (log_probabilities rv) = S → length (keyword_indices rv) = S →
  rectangular S [rv].
Proof. intros Hl Hk. constructor; [split; assumption | constructor]. Qed.

Lemma single_row_matrix func rv clue_idx S (cell : nat → float64) :
  length (log_probabilities rv) = S → length (keyword_indices rv) = S →
  (∀ c, c ∈ clue_idx →
     log_expected_probability (func c) (log_probabilities rv) (keyword_indices rv)
     = OK (cell c)) →
  log_expectation_matrix func [rv] clue_idx = OK [cell <$> clue_idx].
Proof.
  intros Hl Hk Hcell.
  rewrite (log_expectation_matrix_OK func [rv] clue_idx S (λ _, cell)).
  - reflexivity.
  - apply rectangular_singleton; assumption.
  - intros rv' c Hrv Hc. apply list_elem_of_singleton in Hrv as ->.
    apply Hcell. exact Hc.
Qed.

(** C7, as the code has it.  The full-support belief that
    [guesser_random_variable] builds carries [log 0 = -inf], not the
    sentinel, outside the keyword: for every heuristic with finite scores and
    every clue sequence its row of the expectation matrix is the row of the
    certain belief that [guesser_random_variables] builds for the same
    keyword, namely the scores of the clue words against the keyword. *)
Theorem certain_and_full_support_rows_agree
    (word_index : gmap string nat) (keyword : string)
    (func : nat → nat → float64) (clue_idx : list nat)
    (rv : NumpyRandomVariable float64) :
  (∀ c k, is_finite (func c k)) →
  guesser_random_variable keyword word_index = OK rv →
  ∃ k, guesser_random_variables [keyword] word_index = OK [certain k]
       ∧ log_expectation_matrix func [rv] clue_idx
         = OK [(λ c, func c k) <$> clue_idx]
       ∧ log_expectation_matrix func [certain k] clue_idx
         = OK [(λ c, func c k) <$> clue_idx].
Proof.
  intros Hfin Hrv. unfold guesser_random_variable in Hrv.
  destruct (dict_get word_index keyword) as [k|e] eqn:Hk; [|discriminate].
  simpl in Hrv. destruct (decide (k < size word_index)) as [Hlt|]; [|discriminate].
  injection Hrv as <-. exists k. split; [|split].
  - unfold guesser_random_variables. rewrite mapM_res_cons, Hk. reflexivity.
  - rewrite decide_False by lra. rewrite decide_True by reflexivity.
    apply (single_row_matrix _ _ _ (size word_index)); simpl.
    + rewrite length_insert, length_replicate. reflexivity.
    + apply length_seq.
    + intros c _. apply log_expected_probability_point; [exact Hlt|].
      intros j. apply Hfin.
  - apply (certain_matrix func [k] clue_idx). intros. apply Hfin.
Qed.

(** The support carries all the probability mass when every heuristic score
    is the sentinel: the expectation is the sentinel plus the logarithm of
    the mass. *)
Lemma mass_all_sentinel (func : nat → float64) lps (kis : list nat) :
  length lps = length kis →
  Forall is_log_prob lps → Forall (λ k, func k = LOG_PROB_ZERO) kis →
  mass (zip_with fadd lps (func <$> kis)) = (exp (-100) * mass lps)%R.
Proof.
  intros Hlen Hlps. revert kis Hlen.
  induction Hlps as [|a lps Ha _ IH]; intros [|k kis] Hlen Hk;
    simpl in *; try discriminate.
  - lra.
  - inversion Hk as [|? ? Hk0 Hks]; subst. rewrite IH by (congruence || assumption).
    rewrite Hk0. unfold LOG_PROB_ZERO.
    destruct a; simpl in *; try tauto.
    + rewrite exp_plus. lra.
    + lra.
Qed.

(** C8, as the code has it.  For a belief whose log-probabilities denote
    probabilities, not all zero, and whose whole support the heuristic maps to
    the sentinel: the engine raises nothing and returns the finite value
    sentinel + log(mass of the support), hence never [nan]; it is the
    sentinel itself exactly when the support carries mass 1. *)
Theorem impossible_clue_expectation (func : nat → float64) lps (kis : list nat) :
  length lps = length kis →
  Forall is_log_prob lps → Exists is_finite lps →
  Forall (λ k, func k = LOG_PROB_ZERO) kis →
  log_expected_probability func lps kis = OK (Fin (-100 + ln (mass lps)))
  ∧ (mass lps = 1%R → log_expected_probability func lps kis = OK LOG_PROB_ZERO)
  ∧ (log_expected_probability func lps kis = OK LOG_PROB_ZERO → mass lps = 1%R).
Proof.
  intros Hlen Hlps Hsome Hk.
  assert (Hval : log_expected_probability func lps kis
                 = OK (Fin (-100 + ln (mass lps)))).
  { rewrite log_expected_probability_value; try assumption.
    - rewrite mass_all_sentinel by assumption.
      rewrite ln_mult by (apply exp_pos || apply mass_pos; assumption).
      rewrite ln_exp. reflexivity.
    - eapply Forall_impl; [exact Hk|]. intros k ->. exact I. }
  split; [exact Hval|]. rewrite Hval. split.
  - intros ->. rewrite ln_1. unfold LOG_PROB_ZERO. do 2 f_equal. lra.
  - unfold LOG_PROB_ZERO. intros [= Heq].
    assert (Hln : ln (mass lps) = ln 1) by (rewrite ln_1; lra).
    apply ln_inv in Hln; [exact Hln | apply mass_pos; exact Hsome | lra].
Qed.

(** C7, refuted as stated.  Keyword index 1 in a vocabulary of four words,
    the naive heuristic and the clue word 0: the certain belief gives the
    sentinel, the full-support belief with the sentinel outside the keyword
    gives more, because the sentinel entry at word 0 matches the clue. *)
Lemma sentinel_full_support_row_differs :
  log_expectation_matrix naive_clue_and_keyword_log_prob [certain 1] [0]
  = OK [[Fin (-100)]]
  ∧ (∃ x,
       log_expectation_matrix naive_clue_and_keyword_log_prob
         [spec_full_support_belief 1 4] [0] = OK [[Fin x]]
       ∧ (-100 < x)%R)
  ∧ log_expectation_matrix naive_clue_and_keyword_log_prob [certain 1] [0]
    ≠ log_expectation_matrix naive_clue_and_keyword_log_prob
        [spec_full_support_belief 1 4] [0].
Proof.
  assert (Hc : log_expectation_matrix naive_clue_and_keyword_log_prob [certain 1] [0]
               = OK [[Fin (-100)]]).
  { rewrite (certain_matrix _ [1] [0]) by (intros; apply naive_finite).
    reflexivity. }
  assert (Hf : ∃ x,
             log_expectation_matrix naive_clue_and_keyword_log_prob
               [spec_full_support_belief 1 4] [0] = OK [[Fin x]]
             ∧ (-100 < x)%R).
  { eexists. split.
    - apply (single_row_matrix _ _ [0] 4
               (λ c, Fin (ln (mass (zip_with fadd
                     (log_probabilities (spec_full_support_belief 1 4))
                     (naive_clue_and_keyword_log_prob c <$> seq 0 4)))))).
      + reflexivity.
      + reflexivity.
      + intros c _. apply log_expected_probability_value.
        * reflexivity.
        * repeat constructor.
        * left. exact I.
        * apply Forall_forall. intros k _. apply naive_finite.
    - simpl. unfold LOG_PROB_ZERO. simpl.
      rewrite <- (ln_exp (-100)) at 1. apply ln_increasing; [apply exp_pos|].
      replace (-100 + 0)%R with (-100)%R by lra.
      pose proof (exp_pos (0 + -100)). pose proof (exp_pos (-100 + -100)). lra. }
  split; [exact Hc|]. split; [exact Hf|].
  destruct Hf as (x & Hx & Hlt). rewrite Hc, Hx. intros [= Heq]. lra.
Qed.

(** C8, refuted as stated.  A belief reduced to the entry that carries 90%
    of the mass, against a clue that matches no believed keyword: the engine
    returns a value below the sentinel. *)
Lemma compressed_belief_below_sentinel :
  log_expected_probability (naive_clue_and_keyword_log_prob 1) [Fin (ln (9/10))] [0]
  = OK (Fin (ln (9/10) + -100))
  ∧ (ln (9/10) + -100 < -100)%R
  ∧ log_expected_probability (naive_clue_and_keyword_log_prob 1) [Fin (ln (9/10))] [0]
    ≠ OK LOG_PROB_ZERO.
Proof.
  assert (Hln : (ln (9/10) < 0)%R).
  { rewrite <- ln_1. apply ln_increasing; lra. }
  assert (Hv : log_expected_probability (naive_clue_and_keyword_log_prob 1)
                 [Fin (ln (9/10))] [0] = OK (Fin (ln (9/10) + -100))).
  { apply log_expected_probability_certain. reflexivity. }
  split; [exact Hv|]. split; [lra|].
  rewrite Hv. unfold LOG_PROB_ZERO. intros [= Heq]. lra.
Qed.

(** C9, refuted as stated.  A belief whose support is the index 7, beyond the
    four words of the vocabulary: the engine returns a score. *)
Lemma out_of_vocabulary_index_accepted :
  length ALL_WORDS ≤ 7
  ∧ naive_log_expected_probabilities_codes [certain 7] [0] [[0]] = OK [Fin (-100)].
Proof.
  split; [simpl; lia|].
  unfold naive_log_expected_probabilities_codes, log_expected_probabilities_codes.
  rewrite (certain_matrix _ [7] [0]) by (intros; apply naive_finite).
  simpl. unfold np_trace. simpl. unfold diagonal. simpl. unfold LOG_PROB_ZERO.
  do 3 f_equal. lra.
Qed.

(** C9, as the code has it.  The engine never compares a support index with
    the size of the vocabulary.  For beliefs of one common non-empty width and
    codes that name existing slots it returns one score per code whatever
    the support indices are; under the naive heuristic a certain belief at
    an index at or beyond the vocabulary size [N] scores the sentinel against
    every clue word of the vocabulary. *)
Theorem engine_accepts_any_support_index (N : nat) rvs clue_indices codes S :
  0 < S → rectangular S rvs →
  Forall (λ code, length code ≤ length clue_indices
                  ∧ Forall (λ s, s < length rvs) code) codes →
  Forall (λ c, c < N) clue_indices →
  ∃ M scores,
    log_expectation_matrix naive_clue_and_keyword_log_prob rvs clue_indices = OK M
    ∧ naive_log_expected_probabilities_codes rvs clue_indices codes = OK scores
    ∧ length scores = length codes
    ∧ ∀ r k, rvs !! r = Some (certain k) → N ≤ k →
        M !! r = Some ((λ _, LOG_PROB_ZERO) <$> clue_indices).
Proof.
  intros HS Hrect Hcodes Hclue.
  pose proof (log_expectation_matrix_total naive_clue_and_keyword_log_prob
                rvs clue_indices S HS Hrect) as HM.
  set (M := (λ rv, cell_value naive_clue_and_keyword_log_prob rv <$> clue_indices)
              <$> rvs) in *.
  exists M. eexists. split; [exact HM|]. split; [|split].
  - unfold naive_log_expected_probabilities_codes, log_expected_probabilities_codes.
    rewrite HM. simpl. apply (codes_scores_OK M (length clue_indices)).
    + apply Forall_fmap, Forall_forall. intros rv _. simpl. apply length_fmap.
    + unfold M. rewrite length_fmap. exact Hcodes.
  - apply length_fmap.
  - intros r k Hr Hk. unfold M. rewrite list_lookup_fmap, Hr. simpl. f_equal.
    apply Forall_fmap_ext. eapply Forall_impl; [exact Hclue|].
    intros c Hc. simpl in Hc |- *. unfold cell_value.
    change (log_probabilities (certain k)) with [Fin 0].
    change (keyword_indices (certain k)) with [k].
    rewrite log_expected_probability_certain0 by apply naive_finite.
    unfold naive_clue_and_keyword_log_prob. rewrite decide_False by lia.
    reflexivity.
Qed.

(** ** Sorting positions *)

Lemma insert_sorted_perm p l : insert_sorted p l ≡ₚ p :: l.
Proof.
  induction l as [|q l IH]; simpl; [reflexivity|].
  case_bool_decide; [|reflexivity].
  rewrite IH. apply Permutation_swap.
Qed.

Lemma foldr_insert_sorted_perm l : foldr insert_sorted [] l ≡ₚ l.
Proof.
  induction l as [|p l IH]; simpl; [reflexivity|].
  rewrite insert_sorted_perm, IH. reflexivity.
Qed.

Lemma np_argsort_perm xs : np_argsort xs ≡ₚ seq 0 (length xs).
Proof.
  unfold np_argsort. rewrite foldr_insert_sorted_perm.
  rewrite fst_zip; [reflexivity|]. rewrite length_seq. reflexivity.
Qed.

Lemma np_argsort_length xs : length (np_argsort xs) = length xs.
Proof. rewrite np_argsort_perm. apply length_seq. Qed.

Lemma np_argsort_bound xs : Forall (λ i, i < length xs) (np_argsort xs).
Proof.
  rewrite np_argsort_perm. apply Forall_forall. intros i Hi.
  apply elem_of_seq in Hi. lia.
Qed.

(** ** The number of retained indices *)

Lemma decreasing_order_length row : length (decreasing_order row) = length row.
Proof. unfold decreasing_order. rewrite np_argsort_length. apply length_fmap. Qed.

Lemma zip_fmap_r_same {A B} (f : A → B) (l : list A) :
  zip l (f <$> l) = (λ a, (a, f a)) <$> l.
Proof. induction l as [|a l IH]; simpl; [reflexivity|]. f_equal. exact IH. Qed.

Lemma np_argmax_bool_OK bs :
  bs ≠ [] → np_argmax_bool bs = OK (default 0 (first_true bs)).
Proof. destruct bs; [congruence | reflexivity]. Qed.

Lemma np_cumsum_length xs : length (np_cumsum xs) = length xs.
Proof.
  destruct xs as [|x xs]; simpl; [reflexivity|]. f_equal.
  revert x. induction xs as [|y xs IH]; intros x; simpl; [reflexivity|].
  f_equal. apply IH.
Qed.

Lemma num_indices_OK lps p S :
  lps ≠ [] → 0 < S → Forall (λ row, length row = S) lps →
  num_indices_for_cumulative_probability lps (decreasing_order <$> lps) p
  = OK ((λ row, earliest_index_of p row + 1) <$> lps).
Proof.
  intros Hne HS Hrows. unfold num_indices_for_cumulative_probability.
  rewrite decide_False by (rewrite length_fmap; tauto).
  rewrite zip_fmap_r_same.
  rewrite (mapM_fmap_OK_intro _ _ sorted_row).
  - simpl.
    rewrite (mapM_fmap_OK_intro _ _ (earliest_index_of p)).
    + simpl. rewrite <- list_fmap_compose. reflexivity.
    + apply Forall_forall. intros row Hrow. apply np_argmax_bool_OK.
      rewrite Forall_forall in Hrows. specialize (Hrows row Hrow).
      intros Hnil. apply (f_equal length) in Hnil.
      rewrite length_fmap, np_cumsum_length in Hnil. unfold sorted_row in Hnil.
      rewrite length_fmap, decreasing_order_length in Hnil. simpl in Hnil. lia.
  - apply Forall_forall. intros row _. simpl. apply mapM_getitem_OK.
    unfold decreasing_order. pose proof (np_argsort_bound (fneg <$> row)) as Hb.
    rewrite length_fmap in Hb. exact Hb.
Qed.

(** ** The reduced random variables *)

Lemma random_vars_unfold rvs p S :
  rvs ≠ [] → 0 < S → Forall (λ rv, length (log_probabilities rv) = S) rvs →
  random_vars_at_least_cumulative_probability rvs p
  = (X ← mapM (mapM (getitem (log_probabilities <$> rvs)))
              (retained_indices p (log_probabilities <$> rvs));
     OK (zip_with Build_NumpyRandomVariable X
           (retained_indices p (log_probabilities <$> rvs)))).
Proof.
  intros Hne HS Hrows. unfold random_vars_at_least_cumulative_probability.
  rewrite (np_array_OK S) by (apply Forall_fmap; exact Hrows).
  change (OK (log_probabilities <$> rvs) ≫= ?f) with (f (log_probabilities <$> rvs)).
  cbv beta zeta.
  change (λ row, np_argsort (fneg <$> row)) with decreasing_order.
  rewrite (num_indices_OK _ p S).
  - reflexivity.
  - intros Hnil. apply fmap_nil_inv in Hnil. contradiction.
  - exact HS.
  - apply Forall_fmap. exact Hrows.
Qed.

Lemma retained_width_pos p lps : lps ≠ [] → 1 ≤ retained_width p lps.
Proof.
  destruct lps as [|row lps]; [congruence|]. intros _.
  unfold retained_width. simpl. lia.
Qed.

(** C10. For a non-empty batch of beliefs of one common non-empty width and
    any threshold: the prefix length computed for each belief is at least 1,
    and every belief the size reduction returns has a non-empty support (at
    least one retained index, with as many stored entries). *)
Theorem compressed_support_nonempty rvs (p : R) S :
  rvs ≠ [] → 0 < S → Forall (λ rv, length (log_probabilities rv) = S) rvs →
  ∃ num_indices,
    num_indices_for_cumulative_probability (log_probabilities <$> rvs)
      (decreasing_order <$> (log_probabilities <$> rvs)) p = OK num_indices
    ∧ length num_indices = length rvs
    ∧ Forall (λ n, 1 ≤ n) num_indices
    ∧ ∀ out, random_vars_at_least_cumulative_probability rvs p = OK out →
        length out = length rvs
        ∧ Forall (λ rv, keyword_indices rv ≠ []
                        ∧ length (log_probabilities rv) = length (keyword_indices rv))
                 out.
Proof.
  intros Hne HS Hrows.
  set (lps := log_probabilities <$> rvs).
  assert (Hlps : lps ≠ []).
  { intros Hnil. apply fmap_nil_inv in Hnil. contradiction. }
  exists ((λ row, earliest_index_of p row + 1) <$> lps).
  split; [|split; [|split]].
  - apply (num_indices_OK lps p S); [exact Hlps | exact HS |].
    apply Forall_fmap. exact Hrows.
  - unfold lps. rewrite !length_fmap. reflexivity.
  - apply Forall_fmap, Forall_forall. intros row _. simpl. lia.
  - intros out Hout. rewrite (random_vars_unfold rvs p S) in Hout by assumption.
    fold lps in Hout.
    destruct (mapM (mapM (getitem lps)) (retained_indices p lps)) as [X|e] eqn:HX;
      [|discriminate].
    simpl in Hout. injection Hout as <-.
    pose proof (mapM_OK_length _ _ _ HX) as HlenX.
    assert (HlenI : length (retained_indices p lps) = length rvs).
    { unfold retained_indices, lps. rewrite !length_fmap. reflexivity. }
    split.
    + rewrite length_zip_with, HlenX, HlenI. lia.
    + apply Forall_lookup. intros r rv Hr.
      apply lookup_zip_with_Some in Hr as (x & idx & -> & Hx & Hidx). simpl.
      destruct (mapM_OK_lookup _ _ _ _ _ HX Hidx) as (x' & Hx' & Hrow).
      rewrite Hx in Hx'. injection Hx' as <-.
      apply mapM_OK_length in Hrow. split; [|exact Hrow].
      unfold retained_indices in Hidx. rewrite list_lookup_fmap in Hidx.
      destruct ((decreasing_order <$> lps) !! r) as [order|] eqn:Ho; [|discriminate].
      simpl in Hidx. injection Hidx as <-.
      rewrite list_lookup_fmap in Ho.
      destruct (lps !! r) as [row|] eqn:Hrw; [|discriminate].
      simpl in Ho. injection Ho as <-.
      assert (Hw : length row = S).
      { unfold lps in Hrw. rewrite list_lookup_fmap in Hrw.
        destruct (rvs !! r) as [rv|] eqn:Hrv; [|discriminate].
        simpl in Hrw. injection Hrw as <-.
        rewrite Forall_forall in Hrows. apply Hrows.
        eapply list_elem_of_lookup_2. exact Hrv. }
      pose proof (retained_width_pos p lps Hlps) as Hpos.
      intros Hnil. apply (f_equal length) in Hnil.
      rewrite length_take, decreasing_order_length in Hnil. simpl in Hnil. lia.
Qed.

(** ** The size reduction on concrete beliefs *)

Lemma ln_facts :
  (ln (2/5) < ln (3/5))%R ∧ (ln (3/5) < ln (9/10))%R ∧ (ln (9/10) < 0)%R.
Proof.
  repeat split; try (apply ln_increasing; lra).
  rewrite <- ln_1. apply ln_increasing; lra.
Qed.

Lemma decreasing_order_pair a b :
  decreasing_order [Fin a; Fin b] = if decide (a < b)%R then [1; 0] else [0; 1].
Proof.
  unfold decreasing_order, np_argsort. simpl.
  case_bool_decide; case_decide; simpl; try reflexivity; lra.
Qed.

(** Two words with probabilities 3/5 and 2/5 (in either order) and the
    threshold 9/10: no running sum of log-probabilities reaches the logarithm
    of the threshold, so one index is kept. *)
Lemma earliest_index_descending :
  earliest_index_of (9/10) [Fin (ln (3/5)); Fin (ln (2/5))] = 0.
Proof.
  destruct ln_facts as (H1 & H2 & H3).
  unfold earliest_index_of, sorted_row. rewrite decreasing_order_pair.
  rewrite decide_False by lra. rewrite flog_pos by lra.
  unfold fge. simpl.
  rewrite !bool_decide_eq_true_2 by lra. reflexivity.
Qed.

Lemma earliest_index_ascending :
  earliest_index_of (9/10) [Fin (ln (2/5)); Fin (ln (3/5))] = 0.
Proof.
  destruct ln_facts as (H1 & H2 & H3).
  unfold earliest_index_of, sorted_row. rewrite decreasing_order_pair.
  rewrite decide_True by lra. rewrite flog_pos by lra.
  unfold fge. simpl.
  rewrite !bool_decide_eq_true_2 by lra. reflexivity.
Qed.

(** C3 on a concrete belief.  One belief over two words with probabilities
    3/5 and 2/5, threshold 9/10: a single index is retained, whose
    probability 3/5 is below the threshold; the running sum in probability
    space reaches the threshold only with the second entry. *)
Theorem compression_sums_log_probabilities :
  num_indices_for_cumulative_probability
    [log_probabilities belief_first_word] [[0; 1]] (9/10) = OK [1]
  ∧ random_vars_at_least_cumulative_probability [belief_first_word] (9/10)
    = OK [Build_NumpyRandomVariable [[Fin (ln (3/5)); Fin (ln (2/5))]] [0]]
  ∧ (mass [Fin (ln (3/5))] < 9/10)%R
  ∧ (9/10 <= mass [Fin (ln (3/5)); Fin (ln (2/5))])%R.
Proof.
  set (rv := belief_first_word).
  assert (Hord : decreasing_order <$> [log_probabilities rv] = [[0; 1]]).
  { simpl. rewrite decreasing_order_pair. destruct ln_facts as (H1 & _).
    rewrite decide_False by lra. reflexivity. }
  assert (Hnum : num_indices_for_cumulative_probability [log_probabilities rv]
                   [[0; 1]] (9/10) = OK [1]).
  { rewrite <- Hord. rewrite (num_indices_OK _ _ 2).
    - simpl. rewrite earliest_index_descending. reflexivity.
    - discriminate.
    - lia.
    - repeat constructor. }
  split; [exact Hnum|]. split; [|split].
  - rewrite (random_vars_unfold [rv] (9/10) 2).
    + unfold retained_indices, retained_width.
      change (log_probabilities <$> [rv]) with [log_probabilities rv].
      rewrite Hord. simpl. rewrite earliest_index_descending. reflexivity.
    + discriminate.
    + lia.
    + repeat constructor.
  - simpl. rewrite exp_ln by lra. lra.
  - simpl. rewrite !exp_ln by lra. lra.
Qed.

(** C4 on concrete beliefs.  A single belief whose most probable word is not
    word 0 makes the size reduction fail; for two beliefs, what is stored
    for the retained index of the first belief is the whole row of the
    second belief, not the first belief's log-probability at that index. *)
Theorem compression_stores_rows_of_other_beliefs :
  random_vars_at_least_cumulative_probability [belief_second_word] (9/10)
  = Raise IndexError
  ∧ random_vars_at_least_cumulative_probability
      [belief_second_word; belief_first_word] (9/10)
    = OK [Build_NumpyRandomVariable [log_probabilities belief_first_word] [1];
          Build_NumpyRandomVariable [log_probabilities belief_second_word] [0]].
Proof.
  set (rvA := belief_second_word). set (rvB := belief_first_word).
  destruct ln_facts as (H1 & _). split.
  - rewrite (random_vars_unfold [rvA] (9/10) 2).
    + unfold retained_indices, retained_width.
      change (log_probabilities <$> [rvA]) with [log_probabilities rvA].
      simpl. rewrite decreasing_order_pair, decide_True by lra.
      rewrite earliest_index_ascending. reflexivity.
    + discriminate.
    + lia.
    + repeat constructor.
  - rewrite (random_vars_unfold [rvA; rvB] (9/10) 2).
    + unfold retained_indices, retained_width.
      change (log_probabilities <$> [rvA; rvB])
        with [log_probabilities rvA; log_probabilities rvB].
      simpl. rewrite !decreasing_order_pair.
      rewrite decide_True by lra. rewrite decide_False by lra.
      rewrite earliest_index_ascending, earliest_index_descending. reflexivity.
    + discriminate.
    + lia.
    + repeat constructor.
Qed.

(** ** The notebook's own run *)

(** The word indices of the keyword card and of the naive clue. *)
Lemma notebook_indices :
  clue_indices_of ALL_WORD_INDEX keyword_card = OK [1; 0; 2; 3]
  ∧ (naive_clue ≫= clue_indices_of ALL_WORD_INDEX) = OK [0; 3; 1].
Proof. split; reflexivity. Qed.

(** The full-support beliefs the first cell builds for the keyword card. *)
Lemma notebook_random_variables :
  mapM (λ keyword, guesser_random_variable keyword ALL_WORD_INDEX) keyword_card
  = OK full_support_beliefs.
Proof.
  assert (Hone : ∀ keyword k, ALL_WORD_INDEX !! keyword = Some k → k < 4 →
            guesser_random_variable keyword ALL_WORD_INDEX
            = OK (Build_NumpyRandomVariable (full_support_row k) (seq 0 4))).
  { intros keyword k Hk Hlt. unfold guesser_random_variable, dict_get.
    rewrite Hk, flog_zero. simpl. rewrite decide_True by exact Hlt. reflexivity. }
  change keyword_card with ["CAT"; "BOAT"; "RUM"; "DRAG"].
  rewrite !mapM_res_cons.
  rewrite (Hone "CAT" 1), (Hone "BOAT" 0), (Hone "RUM" 2), (Hone "DRAG" 3)
    by (reflexivity || lia).
  reflexivity.
Qed.

(** The scores the last cell prints. *)
Lemma notebook_log_expectations :
  naive_log_expected_probabilities_codes (certain <$> [1; 0; 2; 3]) [0; 3; 1] ALL_CODES
  = OK (Fin <$> [-300; -300; -300; -300; -200; -200; -200; -200; -100; -200; 0; -100;
                 -300; -300; -200; -300; -100; -200; -300; -300; -200; -300; -200; -300]%R).
Proof.
  change [0; 3; 1] with ((λ s, default 0 ([1; 0; 2; 3] !! s)) <$> [1; 3; 0]).
  rewrite (round_trip_scores [1; 0; 2; 3] [1; 3; 0]).
  - unfold ALL_CODES, round_trip_score, LOG_PROB_ZERO. simpl.
    repeat (f_equal; try lra).
  - compute_done.
  - reflexivity.
  - compute_done.
Qed.

(** The size reduction the third cell runs on the full-support beliefs of the
    guesser, with the default threshold 1. *)
Lemma notebook_reduced_random_variables :
  random_vars_at_least_cumulative_probability full_support_beliefs 1
  = OK [Build_NumpyRandomVariable [full_support_row 0] [1];
        Build_NumpyRandomVariable [full_support_row 1] [0];
        Build_NumpyRandomVariable [full_support_row 2] [2];
        Build_NumpyRandomVariable [full_support_row 3] [3]].
Proof.
  assert (Hearly : ∀ k, k < 4 → earliest_index_of 1 (full_support_row k) = 0).
  { intros k Hk. unfold earliest_index_of. rewrite flog_pos, ln_1 by lra.
    assert (Hcases : k = 0 ∨ k = 1 ∨ k = 2 ∨ k = 3) by lia.
    destruct Hcases as [->|[->|[->| ->]]]; unfold fge; simpl;
      rewrite bool_decide_eq_false_2 by lra; reflexivity. }
  rewrite (random_vars_unfold full_support_beliefs 1 4).
  - unfold retained_indices, retained_width. simpl.
    rewrite !Hearly by lia. reflexivity.
  - discriminate.
  - lia.
  - repeat constructor.
Qed.

(** ** Instances on the notebook's data *)

(** The theorem for C1 on the certain beliefs, the clue and the code space of
    the notebook. *)
Lemma log_expected_probabilities_codes_sums_witness :
  0 < 1
  ∧ rectangular 1 (certain <$> [1; 0; 2; 3])
  ∧ Forall (λ code, length code = length [0; 3; 1]
                    ∧ Forall (λ s, s < length (certain <$> [1; 0; 2; 3])) code)
           ALL_CODES
  ∧ ∃ M scores,
      log_expectation_matrix naive_clue_and_keyword_log_prob
        (certain <$> [1; 0; 2; 3]) [0; 3; 1] = OK M
      ∧ log_expected_probabilities_codes naive_clue_and_keyword_log_prob
          (certain <$> [1; 0; 2; 3]) [0; 3; 1] ALL_CODES = OK scores
      ∧ length scores = length ALL_CODES
      ∧ ∀ n code, ALL_CODES !! n = Some code →
          ∃ x, spec_code_log_score M code = Some x ∧ scores !! n = Some x.
Proof.
  assert (H1 : 0 < 1) by lia.
  assert (H2 : rectangular 1 (certain <$> [1; 0; 2; 3])) by (repeat constructor).
  assert (H3 : Forall (λ code, length code = length [0; 3; 1]
                    ∧ Forall (λ s, s < length (certain <$> [1; 0; 2; 3])) code)
                 ALL_CODES)
    by compute_done.
  split; [exact H1|]. split; [exact H2|]. split; [exact H3|].
  exact (log_expected_probabilities_codes_sums naive_clue_and_keyword_log_prob
           (certain <$> [1; 0; 2; 3]) [0; 3; 1] ALL_CODES 1 H1 H2 H3).
Defined.

(** The theorem for C2 on a belief over two words, one of probability zero. *)
Lemma log_expected_probability_is_log_sum_exp_witness :
  length [Fin 0; NInf] = length [0; 1]
  ∧ Forall is_log_prob [Fin 0; NInf] ∧ Exists is_finite [Fin 0; NInf]
  ∧ Forall (λ k, is_finite (naive_clue_and_keyword_log_prob 0 k)) [0; 1]
  ∧ ∃ max_log_term,
      let log_terms :=
        zip_with fadd [Fin 0; NInf] (naive_clue_and_keyword_log_prob 0 <$> [0; 1]) in
      np_max log_terms = OK max_log_term
      ∧ max_log_term ∈ log_terms
      ∧ (∀ t, t ∈ log_terms → ¬ np_lt max_log_term t)
      ∧ log_expected_probability (naive_clue_and_keyword_log_prob 0) [Fin 0; NInf] [0; 1]
        = OK (fadd (flog (np_sum (fexp <$> ((λ t, fsub t max_log_term) <$> log_terms))))
                   max_log_term)
      ∧ log_expected_probability (naive_clue_and_keyword_log_prob 0) [Fin 0; NInf] [0; 1]
        = OK (spec_log_expected_probability (naive_clue_and_keyword_log_prob 0)
                [Fin 0; NInf] [0; 1]).
Proof.
  assert (H1 : length [Fin 0; NInf] = length [0; 1]) by reflexivity.
  assert (H2 : Forall is_log_prob [Fin 0; NInf]) by (repeat constructor).
  assert (H3 : Exists is_finite [Fin 0; NInf]) by (left; exact I).
  assert (H4 : Forall (λ k, is_finite (naive_clue_and_keyword_log_prob 0 k)) [0; 1])
    by (repeat constructor).
  split; [exact H1|]. split; [exact H2|]. split; [exact H3|]. split; [exact H4|].
  exact (log_expected_probability_is_log_sum_exp
           (naive_clue_and_keyword_log_prob 0) [Fin 0; NInf] [0; 1] H1 H2 H3 H4).
Defined.

(** The theorem for C6 on a score vector with a tie for the maximum. *)
Lemma guess_first_maximal_witness :
  [Fin (-100); Fin 0; Fin 0] ≠ []
  ∧ length [Fin (-100); Fin 0; Fin 0] = length [[0; 1; 2]; [0; 1; 3]; [0; 2; 1]]
  ∧ ∃ i best guessed,
      guess [Fin (-100); Fin 0; Fin 0] [[0; 1; 2]; [0; 1; 3]; [0; 2; 1]] = OK guessed
      ∧ [[0; 1; 2]; [0; 1; 3]; [0; 2; 1]] !! i = Some guessed
      ∧ [Fin (-100); Fin 0; Fin 0] !! i = Some best
      ∧ (∀ j y, [Fin (-100); Fin 0; Fin 0] !! j = Some y → ¬ np_lt best y)
      ∧ (∀ j y, j < i → [Fin (-100); Fin 0; Fin 0] !! j = Some y → np_lt y best).
Proof.
  assert (H1 : [Fin (-100); Fin 0; Fin 0] ≠ []) by discriminate.
  assert (H2 : length [Fin (-100); Fin 0; Fin 0]
               = length [[0; 1; 2]; [0; 1; 3]; [0; 2; 1]]) by reflexivity.
  split; [exact H1|]. split; [exact H2|].
  exact (guess_first_maximal [Fin (-100); Fin 0; Fin 0]
           [[0; 1; 2]; [0; 1; 3]; [0; 2; 1]] H1 H2).
Defined.

(** The tie of that vector is broken towards the earlier code. *)
Lemma guess_tie_break_example :
  guess [Fin (-100); Fin 0; Fin 0] [[0; 1; 2]; [0; 1; 3]; [0; 2; 1]] = OK [0; 1; 3].
Proof.
  unfold guess, np_argmax. simpl.
  rewrite bool_decide_eq_true_2 by lra. rewrite bool_decide_eq_false_2 by lra.
  reflexivity.
Qed.

(** The theorem for C5 on the keyword card and the code of the notebook:
    the guess is (1, 3, 0), its score is 0 and the 23 other codes score at
    most the sentinel. *)
Lemma decode_round_trip_witness :
  length keyword_card = 4
  ∧ clue_indices_of ALL_WORD_INDEX keyword_card = OK [1; 0; 2; 3]
  ∧ NoDup [1; 0; 2; 3]
  ∧ code ∈ ALL_CODES
  ∧ ∃ rvs clue clue_idx scores,
      guesser_random_variables keyword_card ALL_WORD_INDEX = OK rvs
      ∧ naive_clue_of keyword_card code = OK clue
      ∧ clue_indices_of ALL_WORD_INDEX clue = OK clue_idx
      ∧ naive_log_expected_probabilities_codes rvs clue_idx ALL_CODES = OK scores
      ∧ guess scores ALL_CODES = OK code
      ∧ ∀ n other, ALL_CODES !! n = Some other →
          if decide (other = code) then scores !! n = Some (Fin 0)
          else ∃ x, scores !! n = Some (Fin x) ∧ (x <= -100)%R.
Proof.
  assert (H1 : length keyword_card = 4) by reflexivity.
  assert (H2 : clue_indices_of ALL_WORD_INDEX keyword_card = OK [1; 0; 2; 3])
    by reflexivity.
  assert (H3 : NoDup [1; 0; 2; 3]) by compute_done.
  assert (H4 : code ∈ ALL_CODES) by compute_done.
  split; [exact H1|]. split; [exact H2|]. split; [exact H3|]. split; [exact H4|].
  exact (decode_round_trip keyword_card ALL_WORD_INDEX [1; 0; 2; 3] code H1 H2 H3 H4).
Defined.

(** The theorem for C7 on the keyword CAT of the notebook's vocabulary. *)
Lemma certain_and_full_support_rows_agree_witness :
  (∀ c k, is_finite (naive_clue_and_keyword_log_prob c k))
  ∧ guesser_random_variable "CAT" ALL_WORD_INDEX
    = OK (Build_NumpyRandomVariable
            (<[1 := Fin 0]> (replicate 4 (flog (Fin 0)))) (seq 0 4))
  ∧ ∃ k, guesser_random_variables ["CAT"] ALL_WORD_INDEX = OK [certain k]
         ∧ log_expectation_matrix naive_clue_and_keyword_log_prob
             [Build_NumpyRandomVariable
                (<[1 := Fin 0]> (replicate 4 (flog (Fin 0)))) (seq 0 4)]
             [0; 3; 1]
           = OK [(λ c, naive_clue_and_keyword_log_prob c k) <$> [0; 3; 1]]
         ∧ log_expectation_matrix naive_clue_and_keyword_log_prob [certain k] [0; 3; 1]
           = OK [(λ c, naive_clue_and_keyword_log_prob c k) <$> [0; 3; 1]].
Proof.
  assert (H1 : ∀ c k, is_finite (naive_clue_and_keyword_log_prob c k)).
  { intros c k. unfold naive_clue_and_keyword_log_prob.
    destruct (decide (k = c)); exact I. }
  assert (H2 : guesser_random_variable "CAT" ALL_WORD_INDEX
               = OK (Build_NumpyRandomVariable
                       (<[1 := Fin 0]> (replicate 4 (flog (Fin 0)))) (seq 0 4)))
    by reflexivity.
  split; [exact H1|]. split; [exact H2|].
  exact (certain_and_full_support_rows_agree ALL_WORD_INDEX "CAT"
           naive_clue_and_keyword_log_prob [0; 3; 1] _ H1 H2).
Defined.

(** The theorem for C8 on the certain belief of CAT against the clue DRAG. *)
Lemma impossible_clue_expectation_witness :
  length [Fin 0] = length [1]
  ∧ Forall is_log_prob [Fin 0] ∧ Exists is_finite [Fin 0]
  ∧ Forall (λ k, naive_clue_and_keyword_log_prob 3 k = LOG_PROB_ZERO) [1]
  ∧ log_expected_probability (naive_clue_and_keyword_log_prob 3) [Fin 0] [1]
    = OK (Fin (-100 + ln (mass [Fin 0])))
  ∧ (mass [Fin 0] = 1%R →
     log_expected_probability (naive_clue_and_keyword_log_prob 3) [Fin 0] [1]
     = OK LOG_PROB_ZERO)
  ∧ (log_expected_probability (naive_clue_and_keyword_log_prob 3) [Fin 0] [1]
     = OK LOG_PROB_ZERO → mass [Fin 0] = 1%R).
Proof.
  assert (H1 : length [Fin 0] = length [1]) by reflexivity.
  assert (H2 : Forall is_log_prob [Fin 0]) by (repeat constructor).
  assert (H3 : Exists is_finite [Fin 0]) by (left; exact I).
  assert (H4 : Forall (λ k, naive_clue_and_keyword_log_prob 3 k = LOG_PROB_ZERO) [1])
    by (repeat constructor).
  split; [exact H1|]. split; [exact H2|]. split; [exact H3|]. split; [exact H4|].
  exact (impossible_clue_expectation (naive_clue_and_keyword_log_prob 3)
           [Fin 0] [1] H1 H2 H3 H4).
Defined.

(** The theorem for C9 on the notebook's clue and code space, with the last
    slot believed to be a word index beyond the four-word vocabulary. *)
Lemma engine_accepts_any_support_index_witness :
  0 < 1 ∧ rectangular 1 (certain <$> [1; 0; 2; 7])
  ∧ Forall (λ code, length code ≤ length [0; 3; 1]
                    ∧ Forall (λ s, s < length (certain <$> [1; 0; 2; 7])) code)
           ALL_CODES
  ∧ Forall (λ c, c < 4) [0; 3; 1]
  ∧ ∃ M scores,
      log_expectation_matrix naive_clue_and_keyword_log_prob
        (certain <$> [1; 0; 2; 7]) [0; 3; 1] = OK M
      ∧ naive_log_expected_probabilities_codes
          (certain <$> [1; 0; 2; 7]) [0; 3; 1] ALL_CODES = OK scores
      ∧ length scores = length ALL_CODES
      ∧ ∀ r k, (certain <$> [1; 0; 2; 7]) !! r = Some (certain k) → 4 ≤ k →
          M !! r = Some ((λ _, LOG_PROB_ZERO) <$> [0; 3; 1]).
Proof.
  assert (H1 : 0 < 1) by lia.
  assert (H2 : rectangular 1 (certain <$> [1; 0; 2; 7])) by (repeat constructor).
  assert (H3 : Forall (λ code, length code ≤ length [0; 3; 1]
                    ∧ Forall (λ s, s < length (certain <$> [1; 0; 2; 7])) code)
                 ALL_CODES)
    by compute_done.
  assert (H4 : Forall (λ c, c < 4) [0; 3; 1]) by compute_done.
  split; [exact H1|]. split; [exact H2|]. split; [exact H3|]. split; [exact H4|].
  exact (engine_accepts_any_support_index 4 (certain <$> [1; 0; 2; 7]) [0; 3; 1]
           ALL_CODES 1 H1 H2 H3 H4).
Defined.

(** The theorem for C10 on the full-support beliefs of the notebook, which
    the size reduction does return (see [notebook_reduced_random_variables]). *)
Lemma compressed_support_nonempty_witness :
  full_support_beliefs ≠ [] ∧ 0 < 4
  ∧ Forall (λ rv, length (log_probabilities rv) = 4) full_support_beliefs
  ∧ (∃ out, random_vars_at_least_cumulative_probability full_support_beliefs 1
            = OK out)
  ∧ ∃ num_indices,
      num_indices_for_cumulative_probability
        (log_probabilities <$> full_support_beliefs)
        (decreasing_order <$> (log_probabilities <$> full_support_beliefs)) 1
      = OK num_indices
      ∧ length num_indices = length full_support_beliefs
      ∧ Forall (λ n, 1 ≤ n) num_indices
      ∧ ∀ out, random_vars_at_least_cumulative_probability full_support_beliefs 1
               = OK out →
          length out = length full_support_beliefs
          ∧ Forall (λ rv, keyword_indices rv ≠ []
                          ∧ length (log_probabilities rv) = length (keyword_indices rv))
                   out.
Proof.
  assert (H1 : full_support_beliefs ≠ []) by discriminate.
  assert (H2 : 0 < 4) by lia.
  assert (H3 : Forall (λ rv, length (log_probabilities rv) = 4) full_support_beliefs)
    by (repeat constructor).
  split; [exact H1|]. split; [exact H2|]. split; [exact H3|].
  split; [eexists; apply notebook_reduced_random_variables|].
  exact (compressed_support_nonempty full_support_beliefs 1 4 H1 H2 H3).
Defined.

(** * Further properties of the notebooks' code *)

(** ** The word index *)

Lemma tuple_index_Some (words : list string) w i :
  tuple_index w words = Some i
  ↔ words !! i = Some w ∧ ∀ j, j < i → words !! j ≠ Some w.
Proof.
  unfold tuple_index. split.
  - destruct (list_find (λ w', w' = w) words) as [[i' x]|] eqn:Hfind; [|discriminate].
    simpl. intros [= ->]. apply list_find_Some in Hfind as (Hi & -> & Hfirst).
    split; [exact Hi|]. intros j Hj Hw. exact (Hfirst j w Hw Hj eq_refl).
  - intros [Hi Hfirst].
    assert (Hfind : list_find (λ w', w' = w) words = Some (i, w)).
    { apply list_find_Some. split; [exact Hi|]. split; [reflexivity|].
      intros j y Hy Hj ->. exact (Hfirst j Hj Hy). }
    rewrite Hfind. reflexivity.
Qed.

Lemma word_index_of_lookup (words : list string) w i :
  word_index_of words !! w = Some i ↔ tuple_index w words = Some i.
Proof.
  unfold word_index_of. split.
  - intros H. apply elem_of_list_to_map_2 in H.
    apply list_elem_of_omap in H as (word & _ & Hword).
    destruct (tuple_index word words) as [i'|] eqn:Hidx; [|discriminate].
    simpl in Hword. injection Hword as -> ->. exact Hidx.
  - intros Hidx. apply elem_of_list_to_map_1'.
    + intros y Hy. apply list_elem_of_omap in Hy as (word & _ & Hword).
      destruct (tuple_index word words) as [i'|] eqn:Hidx'; [|discriminate].
      simpl in Hword. injection Hword as -> ->. congruence.
    + apply list_elem_of_omap. exists w. split.
      * apply tuple_index_Some in Hidx as [Hi _].
        eapply list_elem_of_lookup_2. exact Hi.
      * rewrite Hidx. reflexivity.
Qed.

Lemma word_index_of_dom (words : list string) :
  dom (word_index_of words) = list_to_set words.
Proof.
  apply set_eq. intros w. rewrite elem_of_dom, elem_of_list_to_set. split.
  - intros [i Hi]. apply word_index_of_lookup, tuple_index_Some in Hi as [Hi _].
    eapply list_elem_of_lookup_2. exact Hi.
  - intros Hw. unfold tuple_index.
    destruct (list_find (λ w', w' = w) words) as [[i x]|] eqn:Hfind.
    + exists i. apply word_index_of_lookup. unfold tuple_index.
      rewrite Hfind. reflexivity.
    + exfalso. apply list_find_None in Hfind. rewrite Forall_forall in Hfind.
      exact (Hfind w Hw eq_refl).
Qed.

(** X1. The word index of a duplicate-free vocabulary is the inverse of
    indexing: a word maps to [i] exactly when it stands at position [i], the
    index has one entry per word, and so every index it holds is below its
    size. *)
Theorem word_index_of_inverse (words : list string) :
  NoDup words →
  (∀ w i, word_index_of words !! w = Some i ↔ words !! i = Some w)
  ∧ size (word_index_of words) = length words
  ∧ ∀ w i, word_index_of words !! w = Some i → i < size (word_index_of words).
Proof.
  intros Hnd.
  assert (Hinv : ∀ w i, word_index_of words !! w = Some i ↔ words !! i = Some w).
  { intros w i. rewrite word_index_of_lookup, tuple_index_Some. split.
    - intros [Hi _]. exact Hi.
    - intros Hi. split; [exact Hi|]. intros j Hj Hw.
      assert (j = i) by (eapply NoDup_lookup; eassumption). lia. }
  assert (Hsize : size (word_index_of words) = length words).
  { rewrite <- size_dom, word_index_of_dom. apply size_list_to_set. exact Hnd. }
  split; [exact Hinv|]. split; [exact Hsize|].
  intros w i Hi. rewrite Hsize. apply Hinv in Hi.
  eapply lookup_lt_Some. exact Hi.
Qed.

Lemma ALL_WORD_INDEX_is_word_index : ALL_WORD_INDEX = word_index_of ALL_WORDS.
Proof. reflexivity. Qed.

Lemma word_index_of_inverse_witness :
  NoDup ALL_WORDS
  ∧ (∀ w i, word_index_of ALL_WORDS !! w = Some i ↔ ALL_WORDS !! i = Some w)
  ∧ size (word_index_of ALL_WORDS) = length ALL_WORDS
  ∧ ∀ w i, word_index_of ALL_WORDS !! w = Some i →
           i < size (word_index_of ALL_WORDS).
Proof.
  assert (H1 : NoDup ALL_WORDS) by compute_done.
  split; [exact H1|]. exact (word_index_of_inverse ALL_WORDS H1).
Defined.

(** ** The code space *)

Lemma delete_NoDup_spec {A} (pool : list A) i x :
  NoDup pool → pool !! i = Some x →
  NoDup (delete i pool) ∧ ∀ y, y ∈ delete i pool ↔ y ∈ pool ∧ y ≠ x.
Proof.
  intros Hnd Hi. rewrite delete_take_drop.
  pose proof (take_drop_middle pool i x Hi) as Hmid.
  rewrite <- Hmid in Hnd.
  apply NoDup_app in Hnd as (Ha & Hdisj & Hb).
  apply NoDup_cons in Hb as [Hx Hb].
  split.
  - apply NoDup_app. split; [exact Ha|]. split; [|exact Hb].
    intros z Hz Hz'. apply (Hdisj z Hz). right. exact Hz'.
  - assert (Hpool : ∀ y, y ∈ pool
                         ↔ y ∈ take i pool ∨ y = x ∨ y ∈ drop (S i) pool).
    { intros y. rewrite <- Hmid at 1. rewrite elem_of_app, elem_of_cons.
      reflexivity. }
    intros y. rewrite Hpool, elem_of_app. split.
    + intros [Hy|Hy].
      * split; [left; exact Hy|]. intros ->. apply (Hdisj x Hy). left.
      * split; [right; right; exact Hy|]. intros ->. contradiction.
    + intros [[Hy|[->|Hy]] Hne]; [left; exact Hy | contradiction | right; exact Hy].
Qed.

Lemma elem_of_concat {A} (x : A) (ls : list (list A)) :
  x ∈ concat ls ↔ ∃ l, l ∈ ls ∧ x ∈ l.
Proof.
  rewrite list_elem_of_In, in_concat. split.
  - intros (l & Hl & Hx). exists l. rewrite !list_elem_of_In. auto.
  - intros (l & Hl & Hx). exists l. rewrite <- !list_elem_of_In. auto.
Qed.

Lemma elem_of_permutations_S {A} r (pool : list A) l :
  l ∈ permutations (S r) pool
  ↔ ∃ i x rest, pool !! i = Some x ∧ l = x :: rest
                ∧ rest ∈ permutations r (delete i pool).
Proof.
  simpl. rewrite elem_of_concat. split.
  - intros (ls & Hls & Hl).
    apply elem_of_lookup_imap in Hls as (i & x & -> & Hi).
    apply list_elem_of_fmap in Hl as (rest & -> & Hrest). eauto 6.
  - intros (i & x & rest & Hi & -> & Hrest).
    exists ((λ rest, x :: rest) <$> permutations r (delete i pool)). split.
    + apply elem_of_lookup_imap. eauto.
    + apply list_elem_of_fmap. eauto.
Qed.

Lemma elem_of_permutations {A} r (pool l : list A) :
  NoDup pool →
  l ∈ permutations r pool ↔ length l = r ∧ NoDup l ∧ ∀ x, x ∈ l → x ∈ pool.
Proof.
  revert pool l. induction r as [|r IH]; intros pool l Hnd.
  - simpl. rewrite list_elem_of_singleton. split.
    + intros ->. split; [reflexivity|]. split; [constructor|].
      intros x Hx. inversion Hx.
    + intros (Hlen & _). destruct l; [reflexivity | discriminate].
  - rewrite elem_of_permutations_S. split.
    + intros (i & x & rest & Hi & -> & Hrest).
      destruct (delete_NoDup_spec pool i x Hnd Hi) as [Hnd' Hdel].
      apply (IH _ _ Hnd') in Hrest as (Hlen & Hndr & Hsub).
      split; [simpl; congruence|]. split.
      * apply NoDup_cons. split; [|exact Hndr].
        intros Hx. apply Hsub, Hdel in Hx as [_ Hne]. congruence.
      * intros y Hy. apply elem_of_cons in Hy as [->|Hy].
        -- eapply list_elem_of_lookup_2. exact Hi.
        -- apply Hsub, Hdel in Hy as [Hy _]. exact Hy.
    + intros (Hlen & Hndl & Hsub). destruct l as [|x rest]; [discriminate|].
      assert (Hx : x ∈ pool) by (apply Hsub; left).
      apply list_elem_of_lookup_1 in Hx as [i Hi].
      destruct (delete_NoDup_spec pool i x Hnd Hi) as [Hnd' Hdel].
      apply NoDup_cons in Hndl as [Hxr Hndr].
      exists i, x, rest. split; [exact Hi|]. split; [reflexivity|].
      apply (IH _ _ Hnd'). split; [simpl in Hlen; congruence|].
      split; [exact Hndr|]. intros y Hy. apply Hdel. split.
      * apply Hsub. right. exact Hy.
      * intros ->. contradiction.
Qed.

Lemma NoDup_concat_imap {A B} (f : nat → A → list B) (l : list A) :
  (∀ i x, l !! i = Some x → NoDup (f i x)) →
  (∀ i j x y z, l !! i = Some x → l !! j = Some y →
                z ∈ f i x → z ∈ f j y → i = j) →
  NoDup (concat (imap f l)).
Proof.
  revert f. induction l as [|a l IH]; intros f Hnd Hdisj; simpl; [constructor|].
  apply NoDup_app. split; [apply (Hnd 0 a eq_refl)|]. split.
  - intros z Hz Hz'. apply elem_of_concat in Hz' as (ls & Hls & Hzl).
    apply elem_of_lookup_imap in Hls as (j & y & -> & Hj).
    assert (0 = S j); [|lia].
    eapply (Hdisj 0 (S j) a y z); [reflexivity | exact Hj | exact Hz | exact Hzl].
  - apply IH.
    + intros i x Hi. apply (Hnd (S i) x Hi).
    + intros i j x y z Hi Hj Hz Hz'.
      assert (S i = S j); [|lia]. eapply (Hdisj (S i) (S j)); eassumption.
Qed.

Lemma NoDup_permutations {A} r (pool : list A) :
  NoDup pool → NoDup (permutations r pool).
Proof.
  revert pool. induction r as [|r IH]; intros pool Hnd; simpl.
  - apply NoDup_singleton.
  - apply NoDup_concat_imap.
    + intros i x Hi. apply NoDup_fmap_2.
      * intros l1 l2 [= ->]. reflexivity.
      * apply IH. apply (delete_NoDup_spec pool i x Hnd Hi).
    + intros i j x y z Hi Hj Hz Hz'.
      apply list_elem_of_fmap in Hz as (r1 & -> & _).
      apply list_elem_of_fmap in Hz' as (r2 & [= <- _] & _).
      eapply NoDup_lookup; eassumption.
Qed.

(** X2. The arrangements [itertools.permutations] draws from a
    duplicate-free pool, as the code space is built: a list is one of the
    [r]-arrangements exactly when it has [r] entries, all from the pool and
    pairwise distinct, and no arrangement is listed twice. *)
Theorem permutations_code_space {A} (r : nat) (pool : list A) :
  NoDup pool →
  (∀ l, l ∈ permutations r pool
        ↔ length l = r ∧ NoDup l ∧ ∀ x, x ∈ l → x ∈ pool)
  ∧ NoDup (permutations r pool).
Proof.
  intros Hnd. split.
  - intros l. apply elem_of_permutations. exact Hnd.
  - apply NoDup_permutations. exact Hnd.
Qed.

Lemma permutations_code_space_witness :
  NoDup (seq 0 4)
  ∧ (∀ l, l ∈ ALL_CODES ↔ length l = 3 ∧ NoDup l ∧ ∀ x, x ∈ l → x ∈ seq 0 4)
  ∧ NoDup ALL_CODES.
Proof.
  assert (H1 : NoDup (seq 0 4)) by compute_done.
  split; [exact H1|]. exact (permutations_code_space 3 (seq 0 4) H1).
Defined.

(** ** The constructors of beliefs *)

Lemma mapM_OK_Forall2 {A B} (f : A → res B) (l : list A) (k : list B) :
  mapM f l = OK k ↔ Forall2 (λ x y, f x = OK y) l k.
Proof.
  revert k. induction l as [|x l IH]; intros k.
  - split.
    + intros [= <-]. constructor.
    + intros H. inversion H. reflexivity.
  - rewrite mapM_res_cons. split.
    + destruct (f x) as [y|] eqn:Hy; [|discriminate]. simpl.
      destruct (mapM f l) as [k'|] eqn:Hk; [|discriminate]. simpl.
      intros [= <-]. constructor; [exact Hy|]. apply IH. reflexivity.
    + intros H. inversion H as [|? y ? k' Hy Hk]; subst.
      apply IH in Hk. rewrite Hy, Hk. reflexivity.
Qed.

Lemma mapM_Raise {A B} (f : A → res B) (l : list A) e :
  mapM f l = Raise e ↔
  ∃ l1 x l2, l = l1 ++ x :: l2 ∧ f x = Raise e ∧ ∃ k1, mapM f l1 = OK k1.
Proof.
  induction l as [|x l IH].
  - split; [discriminate|]. intros (l1 & y & l2 & Hl & _).
    destruct l1; discriminate.
  - rewrite mapM_res_cons. split.
    + destruct (f x) as [y|e'] eqn:Hy; simpl.
      * destruct (mapM f l) as [k'|e'] eqn:Hk; simpl; [discriminate|].
        intros [= ->]. destruct (proj1 IH eq_refl) as (l1 & z & l2 & -> & Hz & k1 & Hk1).
        exists (x :: l1), z, l2. split; [reflexivity|]. split; [exact Hz|].
        exists (y :: k1). rewrite mapM_res_cons, Hy, Hk1. reflexivity.
      * intros [= ->]. exists [], x, l. split; [reflexivity|].
        split; [exact Hy|]. exists []. reflexivity.
    + intros (l1 & z & l2 & Hl & Hz & k1 & Hk1). destruct l1 as [|x' l1].
      * injection Hl as -> ->. rewrite Hz. reflexivity.
      * injection Hl as -> ->. rewrite mapM_res_cons in Hk1.
        destruct (f x') as [y|]; [|discriminate]. simpl in Hk1 |- *.
        destruct (mapM f l1) as [k1'|] eqn:Hk1'; [|discriminate].
        assert (HR : mapM f (l1 ++ z :: l2) = Raise e).
        { apply IH. exists l1, z, l2. eauto. }
        rewrite HR. reflexivity.
Qed.

Lemma mass_replicate_NInf n : mass (replicate n NInf) = 0%R.
Proof. induction n as [|n IH]; simpl; [reflexivity|]. rewrite IH. lra. Qed.

Lemma mass_full_support k n :
  k < n → mass (log_probabilities (full_support k n)) = 1%R.
Proof.
  simpl. revert k. induction n as [|n IH]; intros k Hk; [lia|].
  destruct k as [|k]; simpl.
  - rewrite mass_replicate_NInf, exp_0. lra.
  - rewrite IH by lia. lra.
Qed.

(** X3. [guesser_random_variable] fails with [KeyError] exactly when the
    keyword is not in the word index, and with [IndexError] exactly when its
    index is not below the size of the word index; otherwise the belief it
    returns lists every word position, gives the keyword log-probability 0
    and every other word [-inf], and has probability mass exactly 1. *)
Theorem guesser_random_variable_cases (keyword : string) (word_index : gmap string nat) :
  (guesser_random_variable keyword word_index = Raise KeyError
   ↔ word_index !! keyword = None)
  ∧ (guesser_random_variable keyword word_index = Raise IndexError
     ↔ ∃ k, word_index !! keyword = Some k ∧ size word_index ≤ k)
  ∧ ∀ rv, guesser_random_variable keyword word_index = OK rv
          ↔ ∃ k, word_index !! keyword = Some k ∧ k < size word_index
                 ∧ rv = full_support k (size word_index)
                 ∧ keyword_indices rv = seq 0 (size word_index)
                 ∧ log_probabilities rv !! k = Some (Fin 0)
                 ∧ (∀ j, j ≠ k → j < size word_index →
                         log_probabilities rv !! j = Some NInf)
                 ∧ mass (log_probabilities rv) = 1%R.
Proof.
  unfold guesser_random_variable, dict_get. rewrite flog_zero.
  destruct (word_index !! keyword) as [k|] eqn:Hk; simpl.
  - destruct (decide (k < size word_index)) as [Hlt|Hge].
    + split; [split; discriminate|]. split.
      * split; [discriminate|]. intros (k' & [= <-] & Hle). lia.
      * intros rv. split.
        -- intros [= <-]. exists k. split; [reflexivity|]. split; [exact Hlt|].
           split; [reflexivity|]. split; [reflexivity|]. split.
           { simpl. apply list_lookup_insert_eq. rewrite length_replicate. exact Hlt. }
           split.
           { intros j Hj Hjn. simpl. rewrite list_lookup_insert_ne by congruence.
             apply lookup_replicate_2. exact Hjn. }
           apply (mass_full_support k _ Hlt).
        -- intros (k' & [= <-] & _ & -> & _). reflexivity.
    + split; [split; discriminate|]. split.
      * split; [|reflexivity]. intros _. exists k. split; [reflexivity | lia].
      * intros rv. split; [discriminate|]. intros (k' & [= <-] & Hlt & _). lia.
  - split; [split; reflexivity|]. split.
    + split; [discriminate|]. intros (k & Hk' & _). discriminate.
    + intros rv. split; [discriminate|]. intros (k & Hk' & _). discriminate.
Qed.

(** X4. [guesser_random_variables] returns, in the order of the card, the
    certain belief (one entry, log-probability 0, mass 1) at the index of
    each keyword; it fails exactly when a keyword is missing from the word
    index, and then with [KeyError]. *)
Theorem guesser_random_variables_cases (card : list string)
    (word_index : gmap string nat) :
  (∀ rvs, guesser_random_variables card word_index = OK rvs
          ↔ Forall2 (λ keyword rv, ∃ k, word_index !! keyword = Some k
                                         ∧ rv = certain k
                                         ∧ mass (log_probabilities rv) = 1%R)
                    card rvs)
  ∧ (∀ e, guesser_random_variables card word_index = Raise e
          ↔ e = KeyError ∧ ∃ keyword, keyword ∈ card ∧ word_index !! keyword = None).
Proof.
  assert (Hone : ∀ keyword rv,
            (k ← dict_get word_index keyword; OK (Build_NumpyRandomVariable [Fin 0] [k]))
            = OK rv
            ↔ ∃ k, word_index !! keyword = Some k ∧ rv = certain k
                   ∧ mass (log_probabilities rv) = 1%R).
  { intros keyword rv. unfold dict_get.
    destruct (word_index !! keyword) as [k|]; simpl.
    - split.
      + intros [= <-]. exists k. split; [reflexivity|]. split; [reflexivity|].
        simpl. rewrite exp_0. lra.
      + intros (k' & [= <-] & -> & _). reflexivity.
    - split; [discriminate|]. intros (k & Hk & _). discriminate. }
  assert (HOK : ∀ rvs, guesser_random_variables card word_index = OK rvs
            ↔ Forall2 (λ keyword rv, ∃ k, word_index !! keyword = Some k
                                           ∧ rv = certain k
                                           ∧ mass (log_probabilities rv) = 1%R)
                      card rvs).
  { intros rvs. unfold guesser_random_variables. rewrite mapM_OK_Forall2.
    split; intros H; (eapply Forall2_impl; [exact H|]); intros keyword rv Hrv;
      apply Hone; exact Hrv. }
  assert (HRaise : ∀ e, guesser_random_variables card word_index = Raise e →
            e = KeyError ∧ ∃ keyword, keyword ∈ card ∧ word_index !! keyword = None).
  { intros e. unfold guesser_random_variables. rewrite mapM_Raise.
    intros (l1 & keyword & l2 & -> & Hkw & _). unfold dict_get in Hkw.
    destruct (word_index !! keyword) as [k|] eqn:Hk; [discriminate|].
    simpl in Hkw. injection Hkw as <-. split; [reflexivity|].
    exists keyword. split; [|exact Hk]. apply elem_of_app. right. left. }
  split; [exact HOK|]. intros e. split; [apply HRaise|].
  intros [-> (keyword & Hin & Hk)].
  destruct (guesser_random_variables card word_index) as [rvs|e] eqn:Hres.
  - exfalso. pose proof (proj1 (HOK rvs) eq_refl) as HF.
    apply list_elem_of_lookup_1 in Hin as [i Hi].
    destruct (Forall2_lookup_l _ _ _ _ _ HF Hi) as (rv & _ & k & Hk' & _).
    congruence.
  - destruct (HRaise e eq_refl) as [-> _]. reflexivity.
Qed.

(** ** The two versions of the engine, the two kinds of belief *)

Lemma forallb_fmap {A B} (f : A → B) (p : B → bool) (l : list A) :
  forallb p (f <$> l) = forallb (λ x, p (f x)) l.
Proof. induction l as [|x l IH]; simpl; [reflexivity|]. f_equal. exact IH. Qed.

Lemma np_array_cases {A} (rows : list (list A)) :
  np_array rows = OK rows ∨ np_array rows = Raise ValueError.
Proof.
  destruct rows as [|r rs]; simpl; [left; reflexivity|].
  destruct (forallb _ rs); [left | right]; reflexivity.
Qed.

Lemma np_array_same_shape {X A B} (f : X → list A) (g : X → list B) (l : list X) :
  Forall (λ x, length (g x) = length (f x)) l →
  np_array (f <$> l) = OK (f <$> l) → np_array (g <$> l) = OK (g <$> l).
Proof.
  destruct l as [|x l]; [reflexivity|]. intros Hlen. simpl.
  inversion Hlen as [|? ? Hx Hl]; subst.
  change (list_fmap X (list A) f l) with (f <$> l).
  change (list_fmap X (list B) g l) with (g <$> l).
  rewrite !forallb_fmap, Hx.
  replace (forallb (λ x0, length (g x0) =? length (f x)) l)
    with (forallb (λ x0, length (f x0) =? length (f x)) l).
  - destruct (forallb _ l); [reflexivity | discriminate].
  - clear Hlen. induction Hl as [|y l Hy _ IH]; simpl; [reflexivity|].
    rewrite Hy, IH. reflexivity.
Qed.

Lemma mapM_fmap {A B C} (f : B → res C) (h : A → B) (l : list A) :
  mapM f (h <$> l) = mapM (λ x, f (h x)) l.
Proof.
  induction l as [|x l IH]; [reflexivity|].
  rewrite fmap_cons, !mapM_res_cons, IH. reflexivity.
Qed.

Lemma mapM_ext_Forall {A B} (f g : A → res B) (l : list A) :
  Forall (λ x, f x = g x) l → mapM f l = mapM g l.
Proof.
  induction 1 as [|x l Hx _ IH]; [reflexivity|].
  rewrite !mapM_res_cons, Hx, IH. reflexivity.
Qed.

(** X5. On beliefs whose keyword indices are the positions of their
    log-probabilities (the full-support beliefs), the engine of the second
    cell and its refactoring in the third cell return the same result, be it
    the score vector or the exception. *)
Theorem first_version_agrees func rvs clue_indices codes :
  Forall (λ rv, keyword_indices rv = seq 0 (length (log_probabilities rv))) rvs →
  FirstVersion.log_expected_probabilities_codes func rvs clue_indices codes
  = log_expected_probabilities_codes func rvs clue_indices codes.
Proof.
  intros Hki.
  unfold FirstVersion.log_expected_probabilities_codes,
    log_expected_probabilities_codes, log_expectation_matrix.
  destruct (np_array_cases (log_probabilities <$> rvs)) as [Hlp|Hlp]; rewrite Hlp;
    [|reflexivity].
  rewrite (np_array_same_shape log_probabilities keyword_indices rvs).
  - change (OK (log_probabilities <$> rvs) ≫= ?f) with (f (log_probabilities <$> rvs)).
    change (OK (keyword_indices <$> rvs) ≫= ?f) with (f (keyword_indices <$> rvs)).
    cbv beta. rewrite zip_fmap_same, !mapM_fmap.
    rewrite (mapM_ext_Forall _
               (λ rv, mapM (λ c, log_expected_probability (func c)
                                   (log_probabilities rv) (keyword_indices rv))
                           clue_indices) rvs).
    + reflexivity.
    + eapply Forall_impl; [exact Hki|]. intros rv Hrv. simpl.
      rewrite Hrv. reflexivity.
  - eapply Forall_impl; [exact Hki|]. intros rv Hrv. simpl.
    rewrite Hrv. apply length_seq.
  - exact Hlp.
Qed.

Lemma guesser_random_variable_OK_inv keyword word_index rv :
  guesser_random_variable keyword word_index = OK rv →
  ∃ k, dict_get word_index keyword = OK k ∧ k < size word_index
       ∧ rv = full_support k (size word_index).
Proof.
  unfold guesser_random_variable. rewrite flog_zero.
  destruct (dict_get word_index keyword) as [k|]; [|discriminate]. simpl.
  destruct (decide (k < size word_index)); [|discriminate].
  intros [= <-]. eauto.
Qed.

Lemma guesser_full_support_OK card word_index rvs :
  mapM (λ keyword, guesser_random_variable keyword word_index) card = OK rvs →
  ∃ ks, clue_indices_of word_index card = OK ks
        ∧ Forall (λ k, k < size word_index) ks
        ∧ rvs = (λ k, full_support k (size word_index)) <$> ks.
Proof.
  unfold clue_indices_of. revert rvs. induction card as [|keyword card IH]; intros rvs.
  - intros [= <-]. exists []. repeat split. constructor.
  - rewrite !mapM_res_cons.
    destruct (guesser_random_variable keyword word_index) as [rv|] eqn:Hrv;
      [|discriminate].
    simpl. destruct (mapM _ card) as [rvs'|]; [|discriminate]. simpl.
    intros [= <-]. destruct (IH rvs' eq_refl) as (ks & Hks & Hlt & ->).
    apply guesser_random_variable_OK_inv in Hrv as (k & Hk & Hklt & ->).
    exists (k :: ks). rewrite Hk, Hks. repeat split. constructor; assumption.
Qed.

Lemma full_support_matrix (func : nat → nat → float64) ks n clue :
  Forall (λ k, k < n) ks → (∀ c k, is_finite (func c k)) →
  log_expectation_matrix func ((λ k, full_support k n) <$> ks) clue
  = OK ((λ k, (λ c, func c k) <$> clue) <$> ks).
Proof.
  intros Hks Hfin. unfold log_expectation_matrix.
  rewrite (np_array_OK n), (np_array_OK n); simpl.
  - rewrite zip_fmap_same, <- list_fmap_compose.
    apply mapM_fmap_OK_intro. eapply Forall_impl; [exact Hks|].
    intros k Hk. simpl in Hk |- *. apply mapM_OK_intro, Forall_forall.
    intros c _. apply log_expected_probability_point; [exact Hk|].
    intros j. apply Hfin.
  - apply Forall_fmap, Forall_fmap, Forall_forall. intros k _. simpl.
    rewrite length_insert. apply length_replicate.
  - apply Forall_fmap, Forall_fmap, Forall_forall. intros k _. simpl.
    apply length_seq.
Qed.

(** X6. For every keyword card, the full-support beliefs of
    [guesser_random_variable] and the certain beliefs of
    [guesser_random_variables] are interchangeable: under any heuristic with
    finite scores, for any clue and any list of codes, the engine returns the
    same result from both. *)
Theorem full_support_and_certain_scores_agree
    (word_index : gmap string nat) (card : list string)
    (func : nat → nat → float64) (clue_indices : list nat) (codes : list (list nat))
    (rvs : list (NumpyRandomVariable float64)) :
  (∀ c k, is_finite (func c k)) →
  mapM (λ keyword, guesser_random_variable keyword word_index) card = OK rvs →
  ∃ rvs', guesser_random_variables card word_index = OK rvs'
          ∧ log_expected_probabilities_codes func rvs clue_indices codes
            = log_expected_probabilities_codes func rvs' clue_indices codes.
Proof.
  intros Hfin Hrvs.
  apply guesser_full_support_OK in Hrvs as (ks & Hks & Hlt & ->).
  exists (certain <$> ks). split.
  - apply guesser_random_variables_OK. exact Hks.
  - unfold log_expected_probabilities_codes.
    rewrite full_support_matrix by assumption.
    rewrite certain_matrix by (intros; apply Hfin). reflexivity.
Qed.

Lemma first_version_agrees_witness :
  Forall (λ rv, keyword_indices rv = seq 0 (length (log_probabilities rv)))
         full_support_beliefs
  ∧ FirstVersion.log_expected_probabilities_codes naive_clue_and_keyword_log_prob
      full_support_beliefs [0; 3; 1] ALL_CODES
    = log_expected_probabilities_codes naive_clue_and_keyword_log_prob
        full_support_beliefs [0; 3; 1] ALL_CODES.
Proof.
  assert (H1 : Forall (λ rv, keyword_indices rv = seq 0 (length (log_probabilities rv)))
                      full_support_beliefs) by (repeat constructor).
  split; [exact H1|].
  exact (first_version_agrees naive_clue_and_keyword_log_prob full_support_beliefs
           [0; 3; 1] ALL_CODES H1).
Defined.

Lemma full_support_and_certain_scores_agree_witness :
  (∀ c k, is_finite (naive_clue_and_keyword_log_prob c k))
  ∧ mapM (λ keyword, guesser_random_variable keyword ALL_WORD_INDEX) keyword_card
    = OK full_support_beliefs
  ∧ ∃ rvs', guesser_random_variables keyword_card ALL_WORD_INDEX = OK rvs'
            ∧ log_expected_probabilities_codes naive_clue_and_keyword_log_prob
                full_support_beliefs [0; 3; 1] ALL_CODES
              = log_expected_probabilities_codes naive_clue_and_keyword_log_prob
                  rvs' [0; 3; 1] ALL_CODES.
Proof.
  assert (H1 : ∀ c k, is_finite (naive_clue_and_keyword_log_prob c k)).
  { intros c k. unfold naive_clue_and_keyword_log_prob.
    destruct (decide (k = c)); exact I. }
  split; [exact H1|]. split; [exact notebook_random_variables|].
  exact (full_support_and_certain_scores_agree ALL_WORD_INDEX keyword_card
           naive_clue_and_keyword_log_prob [0; 3; 1] ALL_CODES full_support_beliefs
           H1 notebook_random_variables).
Defined.

(** ** The log-sum-exp of the engine *)

Lemma ln_monotone x y : (0 < x)%R → (x <= y)%R → (ln x <= ln y)%R.
Proof.
  intros Hx [Hlt| ->]; [|lra]. left. apply ln_increasing; assumption.
Qed.

Lemma exp_monotone x y : (x <= y)%R → (exp x <= exp y)%R.
Proof. intros [Hlt| ->]; [|lra]. left. apply exp_increasing. exact Hlt. Qed.

Lemma prob_nonneg t : (0 <= prob t)%R.
Proof. destruct t; simpl; try lra. left. apply exp_pos. Qed.

Lemma mass_lower ts m : Fin m ∈ ts → (exp m <= mass ts)%R.
Proof.
  induction ts as [|t ts IH]; [intros H; inversion H|].
  intros H. apply elem_of_cons in H as [<-|H]; simpl.
  - pose proof (mass_nonneg ts). lra.
  - specialize (IH H). pose proof (prob_nonneg t). lra.
Qed.

Lemma mass_upper ts m :
  (∀ t, t ∈ ts → ¬ np_lt (Fin m) t) →
  (mass ts <= INR (length ts) * exp m)%R.
Proof.
  induction ts as [|t ts IH]; intros Hmax.
  - simpl. lra.
  - change (length (t :: ts)) with (S (length ts)). rewrite S_INR. simpl.
    assert (Ht : (prob t <= exp m)%R).
    { assert (Hhere : t ∈ t :: ts) by left. specialize (Hmax t Hhere).
      pose proof (exp_pos m).
      destruct t as [x| | |]; simpl in *; try lra; try tauto.
      apply exp_monotone. lra. }
    assert (IH' : (mass ts <= INR (length ts) * exp m)%R).
    { apply IH. intros t' Ht'. apply Hmax. right. exact Ht'. }
    lra.
Qed.

(** X7. For a belief with at least one non-zero probability and finite
    scores: once the maximal log-term is subtracted, the sum of the
    exponentials lies between 1 and the size of the support (so its
    logarithm is taken of a number away from 0), and the expectation lies
    between the maximal log-term and that term plus the logarithm of the
    size of the support. *)
Theorem log_expected_probability_bounds
    (func : nat → float64) lps (kis : list nat) :
  length lps = length kis →
  Forall is_log_prob lps → Exists is_finite lps →
  Forall (λ k, is_finite (func k)) kis →
  ∃ m s v,
    np_max (zip_with fadd lps (func <$> kis)) = OK (Fin m)
    ∧ np_sum (fexp <$> ((λ t, fsub t (Fin m)) <$> zip_with fadd lps (func <$> kis)))
      = Fin s
    ∧ (1 <= s <= INR (length lps))%R
    ∧ log_expected_probability func lps kis = OK (Fin v)
    ∧ (m <= v <= m + ln (INR (length lps)))%R.
Proof.
  intros Hlen Hlps Hfin Hfunc.
  pose proof (log_terms_is_log_prob func lps kis Hlps Hfunc) as Hts.
  pose proof (log_terms_some_finite func lps kis Hlen Hfin Hfunc) as Hsome.
  set (ts := zip_with fadd lps (func <$> kis)) in *.
  assert (Hn : length ts = length lps).
  { unfold ts. rewrite length_zip_with, length_fmap. lia. }
  destruct (np_max ts) as [m0|e] eqn:Hmax;
    [|destruct ts; [inversion Hsome | discriminate]].
  pose proof (np_max_finite ts m0 Hts Hsome Hmax) as Hm0.
  destruct m0 as [m| | |]; simpl in Hm0; try tauto.
  destruct (np_max_spec ts (Fin m) Hmax) as [Hin Hup].
  pose proof (mass_lower ts m Hin) as Hlow.
  pose proof (mass_upper ts m Hup) as Hupp. rewrite Hn in Hupp.
  pose proof (exp_pos m) as Hem. pose proof (exp_pos (- m)) as Hem'.
  assert (Hinv : (exp (- m) * exp m = 1)%R).
  { rewrite <- exp_plus. replace (- m + m)%R with 0%R by lra. apply exp_0. }
  assert (Hmass : (0 < mass ts)%R) by lra.
  exists m, (exp (- m) * mass ts)%R, (ln (mass ts)).
  split; [reflexivity|]. split; [apply np_sum_exp_shifted; exact Hts|]. split.
  - split.
    + rewrite <- Hinv. apply Rmult_le_compat_l; lra.
    + replace (INR (length lps)) with (exp (- m) * (INR (length lps) * exp m))%R.
      * apply Rmult_le_compat_l; lra.
      * rewrite (Rmult_comm (INR _)), <- Rmult_assoc, Hinv. lra.
  - split; [apply log_expected_probability_value; assumption|]. split.
    + rewrite <- (ln_exp m) at 1. apply ln_monotone; assumption.
    + assert (Hpos : (0 < INR (length lps))%R).
      { apply lt_0_INR. rewrite <- Hn. destruct ts; [inversion Hsome | simpl; lia]. }
      rewrite <- (ln_exp m) at 1. rewrite (Rplus_comm (ln (exp m))).
      rewrite <- ln_mult by assumption. apply ln_monotone; assumption.
Qed.

Lemma mass_shift (func : nat → float64) c lps (kis : list nat) :
  Forall is_log_prob lps → Forall (λ k, is_finite (func k)) kis →
  mass (zip_with fadd lps ((λ k, fadd (func k) (Fin c)) <$> kis))
  = (exp c * mass (zip_with fadd lps (func <$> kis)))%R.
Proof.
  intros Hlps. revert kis. induction Hlps as [|a lps Ha _ IH]; intros kis Hk.
  - simpl. lra.
  - destruct Hk as [|k kis Hk Hks]; simpl; [lra|].
    rewrite IH by exact Hks.
    destruct a, (func k); simpl in *; try tauto;
      change (list_fmap nat float64 func kis) with (func <$> kis); try ring.
    replace (x + (x0 + c))%R with (c + (x + x0))%R by lra. rewrite exp_plus. ring.
Qed.

(** X8. Adding a constant to every score of the heuristic adds that constant
    to the expectation (for a belief with at least one non-zero probability
    and finite scores). *)
Theorem log_expected_probability_shift
    (func : nat → float64) (c : R) lps (kis : list nat) :
  length lps = length kis →
  Forall is_log_prob lps → Exists is_finite lps →
  Forall (λ k, is_finite (func k)) kis →
  ∃ v, log_expected_probability func lps kis = OK (Fin v)
       ∧ log_expected_probability (λ k, fadd (func k) (Fin c)) lps kis
         = OK (Fin (v + c)).
Proof.
  intros Hlen Hlps Hfin Hfunc.
  pose proof (log_terms_some_finite func lps kis Hlen Hfin Hfunc) as Hsome.
  eexists. split; [apply log_expected_probability_value; assumption|].
  rewrite log_expected_probability_value; try assumption.
  - rewrite mass_shift by assumption.
    rewrite ln_mult by (apply exp_pos || apply mass_pos; exact Hsome).
    rewrite ln_exp. do 2 f_equal. lra.
  - eapply Forall_impl; [exact Hfunc|]. intros k Hk. simpl in *.
    destruct (func k); simpl in *; tauto.
Qed.

Lemma mass_Permutation ts ts' : ts ≡ₚ ts' → mass ts = mass ts'.
Proof.
  induction 1 as [|t ts ts' _ IH|t t' ts|ts1 ts2 ts3 _ IH1 _ IH2]; simpl.
  - reflexivity.
  - rewrite IH. reflexivity.
  - lra.
  - congruence.
Qed.

Lemma zip_with_fst_snd (func : nat → float64) (support : list (float64 * nat)) :
  zip_with fadd support.*1 (func <$> support.*2)
  = (λ p, fadd p.1 (func p.2)) <$> support.
Proof.
  induction support as [|[a k] support IH]; simpl; [reflexivity|].
  f_equal. exact IH.
Qed.

(** X9. The expectation does not depend on the order in which the support
    of the belief is listed: permuting the (log-probability, index) pairs
    leaves it unchanged (for a belief with at least one non-zero probability
    and finite scores). *)
Theorem log_expected_probability_permutation
    (func : nat → float64) (support support' : list (float64 * nat)) :
  support ≡ₚ support' →
  Forall is_log_prob support.*1 → Exists is_finite support.*1 →
  Forall (λ k, is_finite (func k)) support.*2 →
  log_expected_probability func support.*1 support.*2
  = log_expected_probability func support'.*1 support'.*2.
Proof.
  intros Hperm Hlps Hfin Hfunc.
  assert (Hperm1 : support.*1 ≡ₚ support'.*1) by (rewrite Hperm; reflexivity).
  assert (Hperm2 : support.*2 ≡ₚ support'.*2) by (rewrite Hperm; reflexivity).
  rewrite !log_expected_probability_value.
  - rewrite !zip_with_fst_snd. do 3 f_equal. apply mass_Permutation.
    rewrite Hperm. reflexivity.
  - rewrite !length_fmap. reflexivity.
  - rewrite <- Hperm1. exact Hlps.
  - rewrite <- Hperm1. exact Hfin.
  - rewrite <- Hperm2. exact Hfunc.
  - rewrite !length_fmap. reflexivity.
  - exact Hlps.
  - exact Hfin.
  - exact Hfunc.
Qed.

(** ** Exceptions of the engine *)

Lemma res_bind_OK {A B} (x : A) (f : A → res B) : OK x ≫= f = f x.
Proof. reflexivity. Qed.







Lemma log_expected_probability_rejects (func : nat → float64) lps (kis : list nat) :
  length lps = 0 ∨ length kis = 0
  ∨ (length lps ≠ length kis ∧ length lps ≠ 1 ∧ length kis ≠ 1) →
  log_expected_probability func lps kis = Raise ValueError.
Proof.
  intros H. unfold log_expected_probability, broadcast. rewrite length_fmap.
  destruct lps as [|a [|a' lps]], kis as [|k [|k' kis]]; simpl in *;
    try reflexivity; try (exfalso; lia).
  - destruct (Nat.eqb_spec (length lps) (length kis)); [exfalso; lia | reflexivity].
Qed.

(** X11. The engine fails with [ValueError] on beliefs with an empty
    support, and on beliefs whose log-probabilities and keyword indices have
    different lengths neither of which is 1 (for at least one belief and one
    clue word). *)
Theorem engine_rejects_malformed_supports func rvs clue_indices codes S S' :
  rvs ≠ [] → clue_indices ≠ [] →
  Forall (λ rv, length (log_probabilities rv) = S
                ∧ length (keyword_indices rv) = S') rvs →
  S = 0 ∨ S' = 0 ∨ (S ≠ S' ∧ S ≠ 1 ∧ S' ≠ 1) →
  log_expected_probabilities_codes func rvs clue_indices codes = Raise ValueError.
Proof.
  intros Hrvs Hclue Hshape Hbad.
  unfold log_expected_probabilities_codes, log_expectation_matrix.
  rewrite (np_array_OK S (log_probabilities <$> rvs)),
    (np_array_OK S' (keyword_indices <$> rvs)).
  - destruct rvs as [|rv rvs]; [congruence|].
    destruct clue_indices as [|c clue]; [congruence|].
    inversion Hshape as [|? ? [Hl Hk] _]; subst.
    rewrite !fmap_cons, !res_bind_OK. cbn [zip_with].
    rewrite mapM_res_cons, mapM_res_cons.
    rewrite log_expected_probability_rejects by exact Hbad. reflexivity.
  - apply Forall_fmap. eapply Forall_impl; [exact Hshape|]. simpl. tauto.
  - apply Forall_fmap. eapply Forall_impl; [exact Hshape|]. simpl. tauto.
Qed.

(** ** The size reduction on beliefs with probabilities at most 1 *)

Lemma cumsum_stays_below thr acc ys :
  is_log_prob acc → fge acc thr = false →
  Forall is_log_of_probability ys →
  Forall (λ c, fge c thr = false) (cumsum_from acc ys).
Proof.
  intros Hacc Hlow Hys. revert acc Hacc Hlow.
  induction Hys as [|y ys Hy _ IH]; intros acc Hacc Hlow; simpl; [constructor|].
  assert (Hnext : is_log_prob (fadd acc y) ∧ fge (fadd acc y) thr = false).
  { unfold fge in *.
    destruct acc as [a| | |], y as [b| | |], thr as [t| | |]; simpl in *;
      try tauto; try discriminate; try (split; [exact I | reflexivity]).
    split; [exact I|]. case_bool_decide as Hlt; simpl in *; [|discriminate].
    rewrite bool_decide_eq_true_2 by lra. reflexivity. }
  destruct Hnext as [Hacc' Hlow']. constructor; [exact Hlow'|].
  apply IH; assumption.
Qed.

Lemma first_true_all_false bs : Forall (λ b, b = false) bs → first_true bs = None.
Proof.
  induction 1 as [|b bs -> _ IH]; simpl; [reflexivity|]. rewrite IH. reflexivity.
Qed.

Lemma earliest_index_is_zero thr xs :
  Forall is_log_of_probability xs →
  default 0 (first_true ((λ c, fge c thr) <$> np_cumsum xs)) = 0.
Proof.
  intros Hxs. destruct Hxs as [|x xs Hx Hxs]; [reflexivity|]. simpl.
  destruct (fge x thr) eqn:Hge; [reflexivity|].
  rewrite first_true_all_false; [reflexivity|].
  apply Forall_fmap. apply cumsum_stays_below; try assumption.
  destruct x; simpl in *; tauto.
Qed.

Lemma Forall_sorted_row (P : float64 → Prop) row :
  Forall P row → Forall P (sorted_row row).
Proof.
  intros Hrow. unfold sorted_row. apply Forall_fmap.
  pose proof (np_argsort_bound (fneg <$> row)) as Hb. rewrite length_fmap in Hb.
  unfold decreasing_order. eapply Forall_impl; [exact Hb|].
  intros s Hs. simpl in Hs |- *. apply lookup_lt_is_Some_2 in Hs as [a Ha].
  rewrite Ha. simpl. rewrite Forall_forall in Hrow. apply Hrow.
  eapply list_elem_of_lookup_2. exact Ha.
Qed.

Lemma earliest_index_of_proper p row :
  Forall is_log_of_probability row → earliest_index_of p row = 0.
Proof.
  intros Hrow. unfold earliest_index_of. apply earliest_index_is_zero.
  apply Forall_sorted_row. exact Hrow.
Qed.

Lemma retained_width_proper p lps :
  lps ≠ [] → Forall (Forall is_log_of_probability) lps → retained_width p lps = 1.
Proof.
  intros Hne Hlps. unfold retained_width.
  destruct Hlps as [|row lps Hrow Hlps]; [congruence|]. clear Hne.
  rewrite fmap_cons, earliest_index_of_proper by exact Hrow. simpl.
  induction Hlps as [|row' lps Hrow' _ IH]; [reflexivity|].
  rewrite fmap_cons, earliest_index_of_proper by exact Hrow'. simpl.
  simpl in IH. lia.
Qed.

(** X12. For a non-empty batch of beliefs of one non-empty width whose
    log-probabilities are logarithms of probabilities between 0 and 1:
    whatever the threshold, the number of indices computed for every belief
    is 1 (a running sum of non-positive logarithms that misses the threshold
    at the first entry misses it ever after), and every belief the size
    reduction returns has exactly one keyword index. *)
Theorem num_indices_is_one rvs (p : R) S :
  rvs ≠ [] → 0 < S → Forall (λ rv, length (log_probabilities rv) = S) rvs →
  Forall (λ rv, Forall is_log_of_probability (log_probabilities rv)) rvs →
  num_indices_for_cumulative_probability (log_probabilities <$> rvs)
    (decreasing_order <$> (log_probabilities <$> rvs)) p
  = OK ((λ _, 1) <$> rvs)
  ∧ ∀ out, random_vars_at_least_cumulative_probability rvs p = OK out →
      Forall (λ rv, length (keyword_indices rv) = 1) out.
Proof.
  intros Hne HS Hrows Hproper.
  set (lps := log_probabilities <$> rvs).
  assert (Hlps : lps ≠ []).
  { intros Hnil. apply fmap_nil_inv in Hnil. contradiction. }
  assert (Hprop' : Forall (Forall is_log_of_probability) lps).
  { apply Forall_fmap. exact Hproper. }
  split.
  - rewrite (num_indices_OK lps p S); [|exact Hlps|exact HS|apply Forall_fmap; exact Hrows].
    f_equal. unfold lps. rewrite <- list_fmap_compose.
    apply Forall_fmap_ext. eapply Forall_impl; [exact Hproper|].
    intros rv Hrv. simpl. rewrite earliest_index_of_proper by exact Hrv. reflexivity.
  - intros out Hout. rewrite (random_vars_unfold rvs p S) in Hout by assumption.
    fold lps in Hout.
    destruct (mapM (mapM (getitem lps)) (retained_indices p lps)) as [X|e] eqn:HX;
      [|discriminate].
    rewrite res_bind_OK in Hout. injection Hout as <-.
    apply Forall_lookup. intros r rv Hr.
    apply lookup_zip_with_Some in Hr as (x & idx & -> & _ & Hidx). simpl.
    unfold retained_indices in Hidx.
    rewrite retained_width_proper in Hidx by assumption.
    rewrite <- list_fmap_compose, list_lookup_fmap in Hidx.
    destruct (lps !! r) as [row|] eqn:Hrow; [|discriminate].
    simpl in Hidx. injection Hidx as <-.
    rewrite length_take, decreasing_order_length.
    assert (length row = S); [|lia].
    unfold lps in Hrow. rewrite list_lookup_fmap in Hrow.
    destruct (rvs !! r) as [rv|] eqn:Hrv; [|discriminate].
    simpl in Hrow. injection Hrow as <-.
    rewrite Forall_forall in Hrows. apply Hrows.
    eapply list_elem_of_lookup_2. exact Hrv.
Qed.

Lemma mapM_zip_with_fmap {A B C D} (f : A → res B) (g : B → C → D) (h : A → C)
    (l : list A) :
  (X ← mapM f l; OK (zip_with g X (h <$> l)))
  = mapM (λ a, x ← f a; OK (g x (h a))) l.
Proof.
  induction l as [|a l IH]; [reflexivity|].
  rewrite !mapM_res_cons, fmap_cons, <- IH.
  destruct (f a) as [x|e]; [|reflexivity]. rewrite !res_bind_OK.
  destruct (mapM f l) as [X|e]; reflexivity.
Qed.

Lemma take_one_decreasing_order row :
  row ≠ [] → take 1 (decreasing_order row) = [top_position row].
Proof.
  intros Hne. unfold top_position.
  pose proof (decreasing_order_length row) as Hlen.
  destruct (decreasing_order row) as [|t rest]; [|reflexivity].
  destruct row; [congruence | discriminate].
Qed.

Lemma random_vars_proper rvs p S :
  rvs ≠ [] → 0 < S → Forall (λ rv, length (log_probabilities rv) = S) rvs →
  Forall (λ rv, Forall is_log_of_probability (log_probabilities rv)) rvs →
  random_vars_at_least_cumulative_probability rvs p
  = mapM (λ rv, row ← getitem (log_probabilities <$> rvs)
                         (top_position (log_probabilities rv));
                OK (Build_NumpyRandomVariable
                      [row] [top_position (log_probabilities rv)]))
         rvs.
Proof.
  intros Hne HS Hrows Hproper.
  rewrite (random_vars_unfold rvs p S) by assumption.
  set (lps := log_probabilities <$> rvs).
  assert (Hidx : retained_indices p lps
                 = (λ rv, [top_position (log_probabilities rv)]) <$> rvs).
  { unfold retained_indices. rewrite retained_width_proper.
    - unfold lps. rewrite <- !list_fmap_compose. apply Forall_fmap_ext.
      eapply Forall_impl; [exact Hrows|]. intros rv Hrv. simpl in Hrv |- *.
      apply take_one_decreasing_order. intros Hnil. rewrite Hnil in Hrv.
      simpl in Hrv. lia.
    - intros Hnil. apply fmap_nil_inv in Hnil. contradiction.
    - apply Forall_fmap. exact Hproper. }
  rewrite Hidx, mapM_fmap.
  rewrite (mapM_zip_with_fmap
             (λ rv, mapM (getitem lps) [top_position (log_probabilities rv)])
             Build_NumpyRandomVariable
             (λ rv, [top_position (log_probabilities rv)]) rvs).
  apply mapM_ext_Forall, Forall_forall. intros rv _.
  rewrite mapM_res_cons.
  destruct (getitem lps (top_position (log_probabilities rv))); reflexivity.
Qed.


(** X14. On the certain beliefs of [guesser_random_variables] the size
    reduction forgets the keywords: whatever the word indices and the
    threshold, every returned random variable has keyword index 0 (the
    position inside the one-entry support) and the log-probabilities of the
    first belief as its single row. *)
Theorem size_reduction_forgets_certain_keywords (ks : list nat) (p : R) :
  ks ≠ [] →
  random_vars_at_least_cumulative_probability (certain <$> ks) p
  = OK ((λ _, Build_NumpyRandomVariable [[Fin 0]] [0]) <$> ks).
Proof.
  intros Hne.
  rewrite (random_vars_proper (certain <$> ks) p 1).
  - rewrite mapM_fmap. apply mapM_OK_intro, Forall_forall. intros k _.
    change (top_position (log_probabilities (certain k))) with 0.
    destruct ks as [|k0 ks]; [congruence|]. reflexivity.
  - intros Hnil. apply fmap_nil_inv in Hnil. contradiction.
  - lia.
  - apply Forall_fmap, Forall_forall. intros k _. reflexivity.
  - apply Forall_fmap, Forall_forall. intros k _. simpl.
    constructor; [simpl; lra | constructor].
Qed.

(** ** The order of decreasing probability *)

Lemma insert_sorted_StronglySorted p l :
  StronglySorted (λ p q, ¬ np_lt q.2 p.2) l →
  StronglySorted (λ p q, ¬ np_lt q.2 p.2) (insert_sorted p l).
Proof.
  induction 1 as [|q l Hl IH Hq]; simpl.
  - repeat constructor.
  - case_bool_decide as Hlt.
    + constructor; [exact IH|]. rewrite insert_sorted_perm.
      constructor; [|exact Hq].
      intros Hc. apply (np_lt_irrefl q.2). eapply np_lt_trans; eassumption.
    + constructor; [constructor; assumption|].
      constructor; [exact Hlt|].
      eapply Forall_impl; [exact Hq|]. intros r Hr Hc. simpl in Hr.
      apply Hr. eapply np_lt_above; eassumption.
Qed.

Lemma foldr_insert_sorted_StronglySorted l :
  StronglySorted (λ p q, ¬ np_lt q.2 p.2) (foldr insert_sorted [] l).
Proof.
  induction l as [|p l IH]; simpl; [constructor|].
  apply insert_sorted_StronglySorted. exact IH.
Qed.

Lemma StronglySorted_lookup_lt {A} (R : A → A → Prop) l i j x y :
  StronglySorted R l → i < j → l !! i = Some x → l !! j = Some y → R x y.
Proof.
  intros Hs. revert i j. induction Hs as [|a l _ IH Ha]; intros i j Hij Hi Hj.
  - discriminate.
  - destruct j as [|j]; [lia|]. destruct i as [|i]; simpl in *.
    + injection Hi as <-. rewrite Forall_forall in Ha. apply Ha.
      eapply list_elem_of_lookup_2. exact Hj.
    + apply (IH i j); [lia | assumption | assumption].
Qed.

Lemma zip_seq_lookup {A} (xs : list A) start i v :
  (i, v) ∈ zip (seq start (length xs)) xs → ∃ j, i = start + j ∧ xs !! j = Some v.
Proof.
  revert start. induction xs as [|x xs IH]; intros start; simpl.
  - intros H. inversion H.
  - intros H. apply elem_of_cons in H as [[= -> ->]|H].
    + exists 0. split; [lia | reflexivity].
    + apply IH in H as (j & -> & Hj). exists (S j). split; [lia | exact Hj].
Qed.

Lemma np_lt_fneg a b :
  a ≠ NaN → b ≠ NaN → np_lt (fneg b) (fneg a) ↔ np_lt a b.
Proof.
  intros Ha Hb. destruct a, b; simpl; try tauto; try congruence. lra.
Qed.

(** X15. The order [(-log_probabilities).argsort()] puts on a row without
    [nan]: it lists every position of the row once, no log-probability at an
    earlier place of the order is smaller than one at a later place, and the
    first place holds a position of the largest log-probability. *)
Theorem decreasing_order_sorts (row : list float64) :
  Forall (λ a, a ≠ NaN) row →
  decreasing_order row ≡ₚ seq 0 (length row)
  ∧ (∀ i j s s', i < j → decreasing_order row !! i = Some s →
       decreasing_order row !! j = Some s' →
       ∃ a b, row !! s = Some a ∧ row !! s' = Some b ∧ ¬ np_lt a b)
  ∧ (row ≠ [] →
     ∃ a, row !! top_position row = Some a ∧ ∀ b, b ∈ row → ¬ np_lt a b).
Proof.
  intros Hnan.
  assert (Hperm : decreasing_order row ≡ₚ seq 0 (length row)).
  { unfold decreasing_order. rewrite np_argsort_perm, length_fmap. reflexivity. }
  set (L := foldr insert_sorted [] (zip (seq 0 (length (fneg <$> row))) (fneg <$> row))).
  assert (HL : decreasing_order row = L.*1) by reflexivity.
  assert (Hsorted : StronglySorted (λ p q, ¬ np_lt q.2 p.2) L)
    by apply foldr_insert_sorted_StronglySorted.
  assert (Hval : ∀ i s v, L !! i = Some (s, v) →
            ∃ a, row !! s = Some a ∧ v = fneg a ∧ a ≠ NaN).
  { intros i s v Hi. apply list_elem_of_lookup_2 in Hi. unfold L in Hi.
    rewrite foldr_insert_sorted_perm in Hi.
    apply zip_seq_lookup in Hi as (j & -> & Hj). rewrite list_lookup_fmap in Hj.
    destruct (row !! j) as [a|] eqn:Ha; [|discriminate]. injection Hj as <-.
    exists a. split; [exact Ha|]. split; [reflexivity|].
    rewrite Forall_forall in Hnan. apply Hnan.
    eapply list_elem_of_lookup_2. exact Ha. }
  assert (Hpair : ∀ i j s s', i < j → decreasing_order row !! i = Some s →
            decreasing_order row !! j = Some s' →
            ∃ a b, row !! s = Some a ∧ row !! s' = Some b ∧ ¬ np_lt a b).
  { intros i j s s' Hij Hi Hj. rewrite HL, list_lookup_fmap in Hi, Hj.
    destruct (L !! i) as [[s1 v1]|] eqn:Hi'; [|discriminate].
    destruct (L !! j) as [[s2 v2]|] eqn:Hj'; [|discriminate].
    simpl in Hi, Hj. injection Hi as ->. injection Hj as ->.
    destruct (Hval _ _ _ Hi') as (a & Ha & -> & Hna).
    destruct (Hval _ _ _ Hj') as (b & Hb & -> & Hnb).
    exists a, b. split; [exact Ha|]. split; [exact Hb|].
    pose proof (StronglySorted_lookup_lt _ L i j _ _ Hsorted Hij Hi' Hj') as Hle.
    simpl in Hle. intros Hc. apply Hle. apply np_lt_fneg; assumption. }
  split; [exact Hperm|]. split; [exact Hpair|].
  intros Hne. unfold top_position.
  pose proof (decreasing_order_length row) as Hlen.
  destruct (decreasing_order row !! 0) as [t|] eqn:Ht.
  - simpl.
    assert (Hin : t ∈ seq 0 (length row)).
    { rewrite <- Hperm. eapply list_elem_of_lookup_2. exact Ht. }
    apply elem_of_seq in Hin. destruct (lookup_lt_is_Some_2 row t) as [a Ha]; [lia|].
    exists a. split; [exact Ha|]. intros b Hb.
    apply list_elem_of_lookup_1 in Hb as [s' Hs'].
    assert (Hin' : s' ∈ decreasing_order row).
    { rewrite Hperm. apply elem_of_seq. apply lookup_lt_Some in Hs'. lia. }
    apply list_elem_of_lookup_1 in Hin' as [j Hj].
    destruct j as [|j].
    + assert (s' = t) by congruence. subst s'.
      assert (b = a) by congruence. subst b. apply np_lt_irrefl.
    + destruct (Hpair 0 (S j) t s') as (a' & b' & Ha' & Hb' & Hle);
        [lia | exact Ht | exact Hj |].
      congruence.
  - exfalso. apply lookup_ge_None in Ht. destruct row; [congruence|].
    simpl in Hlen. lia.
Qed.

(** ** Scores under certain beliefs and the naive heuristic *)

Lemma np_sum_mismatches (t c : list nat) :
  np_sum (zip_with (λ s' s, if decide (s = s') then Fin 0 else LOG_PROB_ZERO) t c)
  = Fin (-100 * INR (mismatches t c)).
Proof.
  unfold mismatches. revert c. induction t as [|s' t IH]; intros c.
  - simpl. f_equal. lra.
  - destruct c as [|s c]; [simpl; f_equal; lra|].
    change (zip (s' :: t) (s :: c)) with ((s', s) :: zip t c).
    change (zip_with ?f (s' :: t) (s :: c)) with (f s' s :: zip_with f t c).
    rewrite np_sum_cons, IH, filter_cons. unfold LOG_PROB_ZERO.
    destruct (decide (s = s')) as [->|Hne].
    + rewrite decide_False by (simpl; congruence). simpl. f_equal. lra.
    + rewrite decide_True by (simpl; congruence).
      change (length (?x :: ?l)) with (S (length l)). rewrite S_INR.
      simpl. f_equal. lra.
Qed.

Lemma mismatches_refl t : mismatches t t = 0.
Proof.
  unfold mismatches. induction t as [|s t IH]; [reflexivity|].
  change (zip (s :: t) (s :: t)) with ((s, s) :: zip t t).
  rewrite filter_cons, decide_False by (simpl; congruence). exact IH.
Qed.

Lemma mismatches_zero t c : length c = length t → mismatches t c = 0 → c = t.
Proof.
  unfold mismatches. revert c. induction t as [|s' t IH]; intros [|s c] Hlen Hm;
    try discriminate; [reflexivity|].
  change (zip (s' :: t) (s :: c)) with ((s', s) :: zip t c) in Hm.
  rewrite filter_cons in Hm. destruct (decide ((s', s).1 ≠ (s', s).2)) as [Hne|Heq].
  - discriminate.
  - simpl in Heq. assert (s' = s) by (destruct (decide (s' = s)); [assumption | contradiction]).
    subst s'. f_equal. apply IH; [simpl in Hlen; lia | exact Hm].
Qed.

Lemma certain_naive_scores (ks t : list nat) (codes : list (list nat)) :
  NoDup ks → Forall (λ s, s < length ks) t →
  Forall (λ c, length c = length t ∧ Forall (λ s, s < length ks) c) codes →
  naive_log_expected_probabilities_codes
    (certain <$> ks) ((λ s, default 0 (ks !! s)) <$> t) codes
  = OK ((λ c, Fin (-100 * INR (mismatches t c))) <$> codes).
Proof.
  intros Hnd Ht Hcodes.
  unfold naive_log_expected_probabilities_codes, log_expected_probabilities_codes.
  rewrite certain_matrix by (intros; apply naive_finite). rewrite res_bind_OK.
  set (clue_idx := (λ s, default 0 (ks !! s)) <$> t).
  set (M := (λ k, (λ c, naive_clue_and_keyword_log_prob c k) <$> clue_idx) <$> ks).
  rewrite (codes_scores_OK M (length t)).
  - f_equal. apply Forall_fmap_ext. eapply Forall_impl; [exact Hcodes|].
    intros c [Hlen Hc]. simpl. rewrite <- np_sum_mismatches. f_equal.
    apply list_eq. intros i. rewrite list_lookup_imap, lookup_zip_with.
    destruct (c !! i) as [s|] eqn:Hs; simpl.
    + destruct (lookup_lt_is_Some_2 t i) as [s' Hs'].
      { rewrite <- Hlen. eapply lookup_lt_Some. exact Hs. }
      rewrite Hs'. simpl. f_equal.
      rewrite Forall_forall in Hc, Ht.
      assert (Hsk : s < length ks)
        by (apply Hc; eapply list_elem_of_lookup_2; exact Hs).
      assert (Hsk' : s' < length ks)
        by (apply Ht; eapply list_elem_of_lookup_2; exact Hs').
      unfold M.
      rewrite (certain_naive_entry ks clue_idx s i (default 0 (ks !! s'))).
      * apply naive_on_card; assumption.
      * exact Hsk.
      * unfold clue_idx. rewrite list_lookup_fmap, Hs'. reflexivity.
    + destruct (t !! i); reflexivity.
  - apply Forall_fmap, Forall_forall. intros k _. simpl. unfold clue_idx.
    rewrite !length_fmap. reflexivity.
  - eapply Forall_impl; [exact Hcodes|]. intros c [Hlen Hc]. simpl.
    unfold M. rewrite length_fmap. split; [lia | exact Hc].
Qed.

(** X16. For any number of keywords and any code length: with certain beliefs
    at pairwise distinct word indices and the naive heuristic, on the clue
    read off at the digits of a code [t], every code of the same length
    scores the sentinel times the number of digits in which it differs from
    [t]; whenever [t] is among the codes, it is the guess. *)
Theorem naive_scores_count_mismatches (ks t : list nat) (codes : list (list nat)) :
  NoDup ks → Forall (λ s, s < length ks) t →
  Forall (λ c, length c = length t ∧ Forall (λ s, s < length ks) c) codes →
  t ∈ codes →
  ∃ scores,
    naive_log_expected_probabilities_codes
      (certain <$> ks) ((λ s, default 0 (ks !! s)) <$> t) codes = OK scores
    ∧ (∀ n c, codes !! n = Some c →
         scores !! n = Some (Fin (-100 * INR (mismatches t c))))
    ∧ guess scores codes = OK t.
Proof.
  intros Hnd Ht Hcodes Hin.
  exists ((λ c, Fin (-100 * INR (mismatches t c))) <$> codes).
  split; [apply certain_naive_scores; assumption|].
  assert (Hscore : ∀ n c, codes !! n = Some c →
            ((λ c, Fin (-100 * INR (mismatches t c))) <$> codes) !! n
            = Some (Fin (-100 * INR (mismatches t c)))).
  { intros n c Hn. rewrite list_lookup_fmap, Hn. reflexivity. }
  split; [exact Hscore|].
  unfold guess.
  destruct (np_argmax ((λ c, Fin (-100 * INR (mismatches t c))) <$> codes))
    as [i|e] eqn:Harg.
  - destruct (np_argmax_spec _ _ Harg) as (b & Hb & Hmax & _).
    apply list_elem_of_lookup_1 in Hin as [n0 Hn0].
    pose proof (Hscore n0 t Hn0) as H0. rewrite mismatches_refl in H0.
    specialize (Hmax n0 _ H0).
    destruct (lookup_lt_is_Some_2 codes i) as [ci Hci].
    { apply lookup_lt_Some in Hb. rewrite length_fmap in Hb. exact Hb. }
    rewrite res_bind_OK. unfold getitem. rewrite Hci. f_equal.
    rewrite (Hscore i ci Hci) in Hb. injection Hb as <-.
    rewrite Forall_forall in Hcodes.
    destruct (Hcodes ci) as [Hlen _]; [eapply list_elem_of_lookup_2; exact Hci|].
    apply mismatches_zero; [exact Hlen|].
    simpl in Hmax. pose proof (pos_INR (mismatches t ci)) as Hpos.
    destruct (mismatches t ci) as [|m]; [reflexivity|].
    exfalso. apply Hmax. rewrite S_INR in *. simpl. pose proof (pos_INR m). lra.
  - destruct codes; [inversion Hin | discriminate].
Qed.

(** ** Normalisation of an embedding vector *)

Lemma sum_squares_nonneg (v : list R) :
  (0 <= foldr Rplus 0 ((λ x, x * x) <$> v))%R.
Proof.
  induction v as [|x v IH]; [simpl; lra|].
  rewrite fmap_cons. cbn [foldr].
  pose proof (Rle_0_sqr x) as Hx. unfold Rsqr in Hx. lra.
Qed.

Lemma sum_squares_zero (v : list R) :
  foldr Rplus 0%R ((λ x, (x * x)%R) <$> v) = 0%R → Forall (λ x, x = 0%R) v.
Proof.
  induction v as [|x v IH]; [constructor|].
  rewrite fmap_cons. cbn [foldr]. intros H.
  pose proof (Rle_0_sqr x) as Hx. unfold Rsqr in Hx.
  pose proof (sum_squares_nonneg v) as Hv.
  constructor.
  - assert (Hxx : (x * x = 0)%R) by lra.
    apply Rmult_integral in Hxx. tauto.
  - apply IH. lra.
Qed.

Lemma sum_squares_scaled (v : list R) n :
  n ≠ 0%R →
  foldr Rplus 0%R ((λ x, (x * x)%R) <$> ((λ x, (x / n)%R) <$> v))
  = (foldr Rplus 0%R ((λ x, (x * x)%R) <$> v) / (n * n))%R.
Proof.
  intros Hn. induction v as [|x v IH].
  - simpl. field. exact Hn.
  - rewrite !fmap_cons. cbn [foldr]. rewrite IH. field. exact Hn.
Qed.

Lemma linalg_norm_normalize (v : list R) :
  linalg_norm v ≠ 0%R → linalg_norm (normalize v) = 1%R.
Proof.
  intros Hn. unfold normalize. rewrite decide_False by exact Hn.
  unfold linalg_norm at 1. rewrite sum_squares_scaled by exact Hn.
  unfold linalg_norm. rewrite sqrt_sqrt by apply sum_squares_nonneg.
  unfold Rdiv. rewrite Rinv_r; [apply sqrt_1|].
  intros H0. apply Hn. unfold linalg_norm. rewrite H0. apply sqrt_0.
Qed.

(** X17. [normalize] returns a vector of the same length; a vector of norm 0
    (all entries 0) is returned unchanged, any other vector is scaled to
    norm 1; normalising twice is normalising once. *)
Theorem normalize_unit_norm (v : list R) :
  length (normalize v) = length v
  ∧ (linalg_norm v = 0%R ↔ Forall (λ x, x = 0%R) v)
  ∧ (linalg_norm v = 0%R ∧ normalize v = v
     ∨ linalg_norm v ≠ 0%R ∧ linalg_norm (normalize v) = 1%R)
  ∧ normalize (normalize v) = normalize v.
Proof.
  assert (Hzero : linalg_norm v = 0%R ↔ Forall (λ x, x = 0%R) v).
  { unfold linalg_norm. split.
    - intros H. apply sum_squares_zero.
      apply sqrt_eq_0; [apply sum_squares_nonneg | exact H].
    - intros H. replace (foldr Rplus 0%R ((λ x, (x * x)%R) <$> v)) with 0%R;
        [apply sqrt_0|].
      induction H as [|x v' -> _ IH]; [reflexivity|].
      rewrite fmap_cons. cbn [foldr]. rewrite <- IH. lra. }
  split.
  { unfold normalize. case_decide; [reflexivity | apply length_fmap]. }
  split; [exact Hzero|].
  destruct (decide (linalg_norm v = 0%R)) as [H0|Hn].
  - assert (Hid : normalize v = v).
    { unfold normalize. rewrite decide_True by exact H0. reflexivity. }
    split; [left; split; assumption|]. rewrite !Hid. reflexivity.
  - pose proof (linalg_norm_normalize v Hn) as H1.
    split; [right; split; assumption|].
    unfold normalize at 1. rewrite H1, decide_False by lra.
    rewrite <- (list_fmap_id (normalize v)) at 2.
    apply list_fmap_ext. intros i x _. simpl. field.
Qed.

(** ** A constant added to the heuristic *)

Lemma np_lt_fadd_Fin a b d :
  np_lt (fadd a (Fin d)) (fadd b (Fin d)) ↔ np_lt a b.
Proof. destruct a, b; simpl; try tauto. lra. Qed.

Lemma argmax_from_shift d best besti i xs :
  argmax_from (fadd best (Fin d)) besti i ((λ x, fadd x (Fin d)) <$> xs)
  = argmax_from best besti i xs.
Proof.
  revert best besti i. induction xs as [|x xs IH]; intros best besti i;
    [reflexivity|].
  rewrite fmap_cons. cbn [argmax_from].
  rewrite (bool_decide_ext _ _ (np_lt_fadd_Fin best x d)).
  destruct (bool_decide (np_lt best x)); apply IH.
Qed.

Lemma np_argmax_shift d xs :
  np_argmax ((λ x, fadd x (Fin d)) <$> xs) = np_argmax xs.
Proof.
  destruct xs as [|x xs]; [reflexivity|]. rewrite fmap_cons. unfold np_argmax.
  f_equal. apply argmax_from_shift.
Qed.

Lemma np_sum_shift c xs :
  np_sum ((λ x, fadd x (Fin c)) <$> xs)
  = fadd (np_sum xs) (Fin (INR (length xs) * c)).
Proof.
  induction xs as [|x xs IH].
  - simpl. f_equal. lra.
  - rewrite fmap_cons, !np_sum_cons, IH.
    change (length (x :: xs)) with (S (length xs)). rewrite S_INR.
    destruct x, (np_sum xs); simpl; try reflexivity. f_equal. lra.
Qed.

Lemma cell_value_shifted func c rv clue :
  length (log_probabilities rv) = length (keyword_indices rv) →
  Forall is_log_prob (log_probabilities rv) →
  Exists is_finite (log_probabilities rv) →
  (∀ cl k, is_finite (func cl k)) →
  cell_value (shifted c func) rv clue = fadd (cell_value func rv clue) (Fin c).
Proof.
  intros Hlen Hlps Hfin Hfunc. unfold cell_value, shifted.
  pose proof (log_terms_some_finite (func clue) _ _ Hlen Hfin
                (proj2 (Forall_forall _ _) (λ k _, Hfunc clue k))) as Hsome.
  rewrite !log_expected_probability_value; try assumption.
  - rewrite mass_shift; [|assumption|apply Forall_forall; intros; apply Hfunc].
    rewrite ln_mult by (apply exp_pos || apply mass_pos; exact Hsome).
    rewrite ln_exp. simpl. f_equal. lra.
  - apply Forall_forall. intros. apply Hfunc.
  - apply Forall_forall. intros k _. simpl.
    pose proof (Hfunc clue k) as Hk. destruct (func clue k); simpl in *; tauto.
Qed.

(** X18. The guess does not depend on an additive constant in the heuristic.
    For beliefs of one non-empty width, each with a non-zero probability, a
    heuristic with finite scores and a non-empty list of codes with one digit
    per clue word: adding [c] to every score of the heuristic adds [L * c]
    to the score of every code ([L] the code length) and leaves the guess
    unchanged. *)
Theorem guess_invariant_under_shift func (c : R) rvs clue_indices codes S :
  0 < S → rectangular S rvs →
  Forall (λ rv, Forall is_log_prob (log_probabilities rv)
                ∧ Exists is_finite (log_probabilities rv)) rvs →
  (∀ cl k, is_finite (func cl k)) →
  codes ≠ [] →
  Forall (λ code, length code = length clue_indices
                  ∧ Forall (λ s, s < length rvs) code) codes →
  ∃ scores guessed,
    log_expected_probabilities_codes func rvs clue_indices codes = OK scores
    ∧ log_expected_probabilities_codes (shifted c func) rvs clue_indices codes
      = OK ((λ x, fadd x (Fin (INR (length clue_indices) * c))) <$> scores)
    ∧ guess scores codes = OK guessed
    ∧ guess ((λ x, fadd x (Fin (INR (length clue_indices) * c))) <$> scores) codes
      = OK guessed.
Proof.
  intros HS Hrect Hvalid Hfunc Hne Hcodes.
  set (L := length clue_indices).
  set (M := (λ rv, cell_value func rv <$> clue_indices) <$> rvs).
  set (M' := (λ rv, cell_value (shifted c func) rv <$> clue_indices) <$> rvs).
  assert (HrowsM : Forall (λ row, length row = L) M).
  { apply Forall_fmap, Forall_forall. intros rv _. simpl. apply length_fmap. }
  assert (HrowsM' : Forall (λ row, length row = L) M').
  { apply Forall_fmap, Forall_forall. intros rv _. simpl. apply length_fmap. }
  assert (HcodesM : Forall (λ code, length code ≤ L
                                   ∧ Forall (λ s, s < length M) code) codes).
  { eapply Forall_impl; [exact Hcodes|]. intros code [Hl Hs]. simpl.
    unfold M. rewrite length_fmap. split; [unfold L; lia | exact Hs]. }
  assert (HcodesM' : Forall (λ code, length code ≤ L
                                    ∧ Forall (λ s, s < length M') code) codes).
  { eapply Forall_impl; [exact Hcodes|]. intros code [Hl Hs]. simpl.
    unfold M'. rewrite length_fmap. split; [unfold L; lia | exact Hs]. }
  assert (Hentry : ∀ s i, s < length rvs → i < L →
            matrix_entry M' s i = fadd (matrix_entry M s i) (Fin c)).
  { intros s i Hs Hi. apply lookup_lt_is_Some_2 in Hs as [rv Hrv].
    apply lookup_lt_is_Some_2 in Hi as [cl Hcl].
    unfold matrix_entry, M, M'. rewrite !list_lookup_fmap, Hrv. simpl.
    rewrite !list_lookup_fmap, Hcl. simpl.
    assert (Hin : rv ∈ rvs) by (eapply list_elem_of_lookup_2; exact Hrv).
    destruct (proj1 (Forall_forall _ _) Hvalid rv Hin) as [Hlp Hfin].
    destruct (proj1 (Forall_forall _ _) Hrect rv Hin) as [Hl Hk].
    apply cell_value_shifted; try assumption. congruence. }
  set (score := λ code, np_sum (imap (λ i s, matrix_entry M s i) code)).
  assert (Hshift : Forall (λ code,
              np_sum (imap (λ i s, matrix_entry M' s i) code)
              = fadd (score code) (Fin (INR L * c))) codes).
  { eapply Forall_impl; [exact Hcodes|]. intros code [Hl Hs]. simpl.
    unfold score.
    replace (imap (λ i s, matrix_entry M' s i) code)
      with ((λ x, fadd x (Fin c)) <$> imap (λ i s, matrix_entry M s i) code).
    - rewrite np_sum_shift, length_imap, Hl. reflexivity.
    - apply list_eq. intros i. rewrite list_lookup_fmap, !list_lookup_imap.
      destruct (code !! i) as [s|] eqn:Hi; [|reflexivity]. simpl. f_equal.
      symmetry. apply Hentry.
      + rewrite Forall_forall in Hs. apply Hs.
        eapply list_elem_of_lookup_2. exact Hi.
      + apply lookup_lt_Some in Hi. unfold L. lia. }
  assert (Hscores : log_expected_probabilities_codes func rvs clue_indices codes
                    = OK (score <$> codes)).
  { unfold log_expected_probabilities_codes.
    rewrite (log_expectation_matrix_total func rvs clue_indices S HS Hrect).
    rewrite res_bind_OK. apply (codes_scores_OK M L); assumption. }
  assert (Hscores' : log_expected_probabilities_codes (shifted c func) rvs
                       clue_indices codes
                     = OK ((λ x, fadd x (Fin (INR L * c))) <$> (score <$> codes))).
  { unfold log_expected_probabilities_codes.
    rewrite (log_expectation_matrix_total (shifted c func) rvs clue_indices S HS Hrect).
    rewrite res_bind_OK. rewrite (codes_scores_OK M' L) by assumption.
    f_equal. rewrite <- list_fmap_compose. apply Forall_fmap_ext. exact Hshift. }
  destruct codes as [|code0 codes']; [congruence|].
  destruct (np_argmax (score <$> code0 :: codes')) as [i|e] eqn:Harg;
    [|discriminate].
  destruct (lookup_lt_is_Some_2 (code0 :: codes') i) as [g Hg].
  { destruct (np_argmax_spec _ _ Harg) as (b & Hb & _).
    apply lookup_lt_Some in Hb. rewrite length_fmap in Hb. exact Hb. }
  exists (score <$> code0 :: codes'), g.
  split; [exact Hscores|]. split; [exact Hscores'|].
  unfold guess. rewrite np_argmax_shift, Harg, !res_bind_OK.
  unfold getitem. rewrite Hg. split; reflexivity.
Qed.

(** ** Instances of the further properties *)

Lemma log_expected_probability_bounds_witness :
  length [Fin 0; NInf] = length [0; 1]
  ∧ Forall is_log_prob [Fin 0; NInf] ∧ Exists is_finite [Fin 0; NInf]
  ∧ Forall (λ k, is_finite (naive_clue_and_keyword_log_prob 0 k)) [0; 1]
  ∧ ∃ m s v,
      np_max (zip_with fadd [Fin 0; NInf]
                (naive_clue_and_keyword_log_prob 0 <$> [0; 1])) = OK (Fin m)
      ∧ np_sum (fexp <$> ((λ t, fsub t (Fin m))
                            <$> zip_with fadd [Fin 0; NInf]
                                  (naive_clue_and_keyword_log_prob 0 <$> [0; 1])))
        = Fin s
      ∧ (1 <= s <= INR (length [Fin 0; NInf]))%R
      ∧ log_expected_probability (naive_clue_and_keyword_log_prob 0)
          [Fin 0; NInf] [0; 1] = OK (Fin v)
      ∧ (m <= v <= m + ln (INR (length [Fin 0; NInf])))%R.
Proof.
  assert (H1 : length [Fin 0; NInf] = length [0; 1]) by reflexivity.
  assert (H2 : Forall is_log_prob [Fin 0; NInf]) by (repeat constructor).
  assert (H3 : Exists is_finite [Fin 0; NInf]) by (left; exact I).
  assert (H4 : Forall (λ k, is_finite (naive_clue_and_keyword_log_prob 0 k)) [0; 1])
    by (repeat constructor).
  split; [exact H1|]. split; [exact H2|]. split; [exact H3|]. split; [exact H4|].
  exact (log_expected_probability_bounds (naive_clue_and_keyword_log_prob 0)
           [Fin 0; NInf] [0; 1] H1 H2 H3 H4).
Defined.

Lemma log_expected_probability_shift_witness :
  length [Fin 0; NInf] = length [0; 1]
  ∧ Forall is_log_prob [Fin 0; NInf] ∧ Exists is_finite [Fin 0; NInf]
  ∧ Forall (λ k, is_finite (naive_clue_and_keyword_log_prob 0 k)) [0; 1]
  ∧ ∃ v, log_expected_probability (naive_clue_and_keyword_log_prob 0)
           [Fin 0; NInf] [0; 1] = OK (Fin v)
         ∧ log_expected_probability
             (λ k, fadd (naive_clue_and_keyword_log_prob 0 k) (Fin 5))
             [Fin 0; NInf] [0; 1] = OK (Fin (v + 5)).
Proof.
  assert (H1 : length [Fin 0; NInf] = length [0; 1]) by reflexivity.
  assert (H2 : Forall is_log_prob [Fin 0; NInf]) by (repeat constructor).
  assert (H3 : Exists is_finite [Fin 0; NInf]) by (left; exact I).
  assert (H4 : Forall (λ k, is_finite (naive_clue_and_keyword_log_prob 0 k)) [0; 1])
    by (repeat constructor).
  split; [exact H1|]. split; [exact H2|]. split; [exact H3|]. split; [exact H4|].
  exact (log_expected_probability_shift (naive_clue_and_keyword_log_prob 0) 5
           [Fin 0; NInf] [0; 1] H1 H2 H3 H4).
Defined.

Lemma log_expected_probability_permutation_witness :
  [(Fin 0, 0); (NInf, 1)] ≡ₚ [(NInf, 1); (Fin 0, 0)]
  ∧ Forall is_log_prob [(Fin 0, 0); (NInf, 1)].*1
  ∧ Exists is_finite [(Fin 0, 0); (NInf, 1)].*1
  ∧ Forall (λ k, is_finite (naive_clue_and_keyword_log_prob 0 k))
           [(Fin 0, 0); (NInf, 1)].*2
  ∧ log_expected_probability (naive_clue_and_keyword_log_prob 0)
      [(Fin 0, 0); (NInf, 1)].*1 [(Fin 0, 0); (NInf, 1)].*2
    = log_expected_probability (naive_clue_and_keyword_log_prob 0)
        [(NInf, 1); (Fin 0, 0)].*1 [(NInf, 1); (Fin 0, 0)].*2.
Proof.
  assert (H1 : [(Fin 0, 0); (NInf, 1)] ≡ₚ [(NInf, 1); (Fin 0, 0)])
    by apply Permutation_swap.
  assert (H2 : Forall is_log_prob [(Fin 0, 0); (NInf, 1)].*1) by (repeat constructor).
  assert (H3 : Exists is_finite [(Fin 0, 0); (NInf, 1)].*1) by (left; exact I).
  assert (H4 : Forall (λ k, is_finite (naive_clue_and_keyword_log_prob 0 k))
                      [(Fin 0, 0); (NInf, 1)].*2) by (repeat constructor).
  split; [exact H1|]. split; [exact H2|]. split; [exact H3|]. split; [exact H4|].
  exact (log_expected_probability_permutation (naive_clue_and_keyword_log_prob 0)
           _ _ H1 H2 H3 H4).
Defined.


Lemma engine_rejects_malformed_supports_witness :
  [empty_support_belief] ≠ [] ∧ [0] ≠ []
  ∧ Forall (λ rv : NumpyRandomVariable float64,
              length (log_probabilities rv) = 0 ∧ length (keyword_indices rv) = 0)
           [empty_support_belief]
  ∧ (0 = 0 ∨ 0 = 0 ∨ (0 ≠ 0 ∧ 0 ≠ 1 ∧ 0 ≠ 1))
  ∧ log_expected_probabilities_codes naive_clue_and_keyword_log_prob
      [empty_support_belief] [0] [[0]] = Raise ValueError.
Proof.
  assert (H1 : [empty_support_belief] ≠ []) by discriminate.
  assert (H2 : [0] ≠ []) by discriminate.
  assert (H3 : Forall (λ rv : NumpyRandomVariable float64,
                         length (log_probabilities rv) = 0
                         ∧ length (keyword_indices rv) = 0)
                      [empty_support_belief]) by (repeat constructor).
  assert (H4 : 0 = 0 ∨ 0 = 0 ∨ (0 ≠ 0 ∧ 0 ≠ 1 ∧ 0 ≠ 1)) by (left; reflexivity).
  split; [exact H1|]. split; [exact H2|]. split; [exact H3|]. split; [exact H4|].
  exact (engine_rejects_malformed_supports naive_clue_and_keyword_log_prob
           [empty_support_belief] [0] [[0]] 0 0 H1 H2 H3 H4).
Defined.

Lemma full_support_beliefs_proper :
  Forall (λ rv, Forall is_log_of_probability (log_probabilities rv))
         full_support_beliefs.
Proof.
  apply Forall_forall. intros rv Hrv.
  apply list_elem_of_fmap in Hrv as (k & -> & _). simpl. unfold full_support_row.
  apply Forall_insert; [apply Forall_replicate; exact I | simpl; lra].
Qed.

Lemma num_indices_is_one_witness :
  full_support_beliefs ≠ [] ∧ 0 < 4
  ∧ Forall (λ rv, length (log_probabilities rv) = 4) full_support_beliefs
  ∧ Forall (λ rv, Forall is_log_of_probability (log_probabilities rv))
           full_support_beliefs
  ∧ num_indices_for_cumulative_probability
      (log_probabilities <$> full_support_beliefs)
      (decreasing_order <$> (log_probabilities <$> full_support_beliefs)) 1
    = OK ((λ _, 1) <$> full_support_beliefs)
  ∧ ∀ out, random_vars_at_least_cumulative_probability full_support_beliefs 1
           = OK out →
      Forall (λ rv, length (keyword_indices rv) = 1) out.
Proof.
  assert (H1 : full_support_beliefs ≠ []) by discriminate.
  assert (H2 : 0 < 4) by lia.
  assert (H3 : Forall (λ rv, length (log_probabilities rv) = 4) full_support_beliefs)
    by (repeat constructor).
  split; [exact H1|]. split; [exact H2|]. split; [exact H3|].
  split; [exact full_support_beliefs_proper|].
  exact (num_indices_is_one full_support_beliefs 1 4 H1 H2 H3
           full_support_beliefs_proper).
Defined.


Lemma size_reduction_forgets_certain_keywords_witness :
  [1; 0; 2; 3] ≠ []
  ∧ random_vars_at_least_cumulative_probability (certain <$> [1; 0; 2; 3]) 1
    = OK ((λ _, Build_NumpyRandomVariable [[Fin 0]] [0]) <$> [1; 0; 2; 3]).
Proof.
  assert (H1 : [1; 0; 2; 3] ≠ []) by discriminate.
  split; [exact H1|].
  exact (size_reduction_forgets_certain_keywords [1; 0; 2; 3] 1 H1).
Defined.

Lemma decreasing_order_sorts_witness :
  Forall (λ a, a ≠ NaN) (full_support_row 1)
  ∧ decreasing_order (full_support_row 1) ≡ₚ seq 0 (length (full_support_row 1))
  ∧ (∀ i j s s', i < j → decreasing_order (full_support_row 1) !! i = Some s →
       decreasing_order (full_support_row 1) !! j = Some s' →
       ∃ a b, full_support_row 1 !! s = Some a ∧ full_support_row 1 !! s' = Some b
              ∧ ¬ np_lt a b)
  ∧ (full_support_row 1 ≠ [] →
     ∃ a, full_support_row 1 !! top_position (full_support_row 1) = Some a
          ∧ ∀ b, b ∈ full_support_row 1 → ¬ np_lt a b).
Proof.
  assert (H1 : Forall (λ a, a ≠ NaN) (full_support_row 1))
    by (repeat (constructor; [discriminate|]); constructor).
  split; [exact H1|]. exact (decreasing_order_sorts (full_support_row 1) H1).
Defined.

Lemma naive_scores_count_mismatches_witness :
  NoDup [1; 0; 2; 3] ∧ Forall (λ s, s < length [1; 0; 2; 3]) code
  ∧ Forall (λ c, length c = length code
                 ∧ Forall (λ s, s < length [1; 0; 2; 3]) c) ALL_CODES
  ∧ code ∈ ALL_CODES
  ∧ ∃ scores,
      naive_log_expected_probabilities_codes
        (certain <$> [1; 0; 2; 3])
        ((λ s, default 0 ([1; 0; 2; 3] !! s)) <$> code) ALL_CODES = OK scores
      ∧ (∀ n c, ALL_CODES !! n = Some c →
           scores !! n = Some (Fin (-100 * INR (mismatches code c))))
      ∧ guess scores ALL_CODES = OK code.
Proof.
  assert (H1 : NoDup [1; 0; 2; 3]) by compute_done.
  assert (H2 : Forall (λ s, s < length [1; 0; 2; 3]) code) by compute_done.
  assert (H3 : Forall (λ c, length c = length code
                            ∧ Forall (λ s, s < length [1; 0; 2; 3]) c) ALL_CODES)
    by compute_done.
  assert (H4 : code ∈ ALL_CODES) by compute_done.
  split; [exact H1|]. split; [exact H2|]. split; [exact H3|]. split; [exact H4|].
  exact (naive_scores_count_mismatches [1; 0; 2; 3] code ALL_CODES H1 H2 H3 H4).
Defined.

Lemma guess_invariant_under_shift_witness :
  0 < 1 ∧ rectangular 1 (certain <$> [1; 0; 2; 3])
  ∧ Forall (λ rv, Forall is_log_prob (log_probabilities rv)
                  ∧ Exists is_finite (log_probabilities rv))
           (certain <$> [1; 0; 2; 3])
  ∧ (∀ cl k, is_finite (naive_clue_and_keyword_log_prob cl k))
  ∧ ALL_CODES ≠ []
  ∧ Forall (λ code, length code = length [0; 3; 1]
                    ∧ Forall (λ s, s < length (certain <$> [1; 0; 2; 3])) code)
           ALL_CODES
  ∧ ∃ scores guessed,
      log_expected_probabilities_codes naive_clue_and_keyword_log_prob
        (certain <$> [1; 0; 2; 3]) [0; 3; 1] ALL_CODES = OK scores
      ∧ log_expected_probabilities_codes (shifted 5 naive_clue_and_keyword_log_prob)
          (certain <$> [1; 0; 2; 3]) [0; 3; 1] ALL_CODES
        = OK ((λ x, fadd x (Fin (INR (length [0; 3; 1]) * 5))) <$> scores)
      ∧ guess scores ALL_CODES = OK guessed
      ∧ guess ((λ x, fadd x (Fin (INR (length [0; 3; 1]) * 5))) <$> scores) ALL_CODES
        = OK guessed.
Proof.
  assert (H1 : 0 < 1) by lia.
  assert (H2 : rectangular 1 (certain <$> [1; 0; 2; 3])) by (repeat constructor).
  assert (H3 : Forall (λ rv, Forall is_log_prob (log_probabilities rv)
                             ∧ Exists is_finite (log_probabilities rv))
                      (certain <$> [1; 0; 2; 3])) by (repeat constructor).
  assert (H4 : ∀ cl k, is_finite (naive_clue_and_keyword_log_prob cl k)).
  { intros c k. unfold naive_clue_and_keyword_log_prob.
    destruct (decide (k = c)); exact I. }
  assert (H5 : ALL_CODES ≠ []) by discriminate.
  assert (H6 : Forall (λ code, length code = length [0; 3; 1]
                    ∧ Forall (λ s, s < length (certain <$> [1; 0; 2; 3])) code)
                 ALL_CODES) by compute_done.
  split; [exact H1|]. split; [exact H2|]. split; [exact H3|]. split; [exact H4|].
  split; [exact H5|]. split; [exact H6|].
  exact (guess_invariant_under_shift naive_clue_and_keyword_log_prob 5
           (certain <$> [1; 0; 2; 3]) [0; 3; 1] ALL_CODES 1 H1 H2 H3 H4 H5 H6).
Defined.
